(** * co_routines: a thermal/battery regulator driven by two C++20 coroutines

    Shallow embedding of [co_routines.cpp].

    - [double] is IEEE-754 binary64, modelled by Rocq's primitive [float]
      (same format, round-to-nearest-even), so every arithmetic step and
      every comparison below is the one the compiled program performs.
    - A coroutine is modelled by its frame (the by-value parameter [info]),
      the suspension point it is parked at, and the [info] member of its
      promise object.
    - [main] is modelled by one function for the body of the dispatch loop
      ([main_step]); the two [rand()] results consumed by [init_values] are
      arguments of that function.  Console output is not modelled: no
      [std::cout] line writes program state.

    Layout: the embedding, the definitions the statements use, a small
    theory of binary64 ordering and rounding over [SpecFloat], then the
    properties of the processes and of the controller. *)

From Stdlib Require Import ZArith NArith Bool List Lia Floats QArith Qround.
Import ListNotations.

#[local] Set Warnings "-inexact-float".
#[local] Open Scope float_scope.

(** ** Data model *)

(** [enum State { start, cooling, heating, charging, finish, standby }] *)
Inductive State : Set :=
  | start | cooling | heating | charging | finish | standby.

(** The enumerators' integer values ([while(info.state != 5)] relies on them). *)
Definition State_value (s : State) : Z :=
  match s with
  | start => 0 | cooling => 1 | heating => 2
  | charging => 3 | finish => 4 | standby => 5
  end%Z.

Definition State_eqb (a b : State) : bool := Z.eqb (State_value a) (State_value b).

(** [struct message] *)
Record message : Set := Message {
  temperature : float;
  batteryCharge : float;
  state : State
}.

Definition set_state (m : message) (s : State) : message :=
  {| temperature := temperature m; batteryCharge := batteryCharge m; state := s |}.

(** ** Coroutine objects *)

(** Where a coroutine created from [acclimate] or [charger] is parked:
    at one of the four [co_yield]s of [acclimate] or at the final suspend
    point ([final_suspend] returns [suspend_always]). *)
Inductive point : Set :=
  | yield_cooling   (* co_yield of the first loop *)
  | yield_heating   (* co_yield of the second loop *)
  | yield_band      (* co_yield under the band test *)
  | yield_low       (* co_yield of the else branch *)
  | final_suspend.

(** The coroutine a [return_object]'s [handle_] refers to.
    [frame] is the coroutine's own copy of its parameter [info];
    [promise_info] is [promise_type::info], [None] as long as neither
    [yield_value] nor [return_value] has written it. *)
Record coroutine : Set := Coroutine {
  frame : message;
  parked : point;
  promise_info : option message
}.

(** [co_yield info]: [yield_value] copies the value into the promise and
    suspends. *)
Definition co_yield (p : point) (info : message) : coroutine :=
  {| frame := info; parked := p; promise_info := Some info |}.

(** Control reaches the closing brace: the coroutine parks at its final
    suspend point and the promise keeps what it held.  (The promise has
    [return_value] and no [return_void], so the language leaves running
    off the end undefined; compilers jump to the final suspend point,
    which is what is modelled.  [main] never resumes a coroutine that
    far, see [sound].) *)
Definition run_off (pr : option message) (info : message) : coroutine :=
  {| frame := info; parked := final_suspend; promise_info := pr |}.

(** ** acclimate *)

Definition cool (info : message) : message :=
  {| temperature := temperature info - 0.1;
     batteryCharge := batteryCharge info - 0.8;
     state := cooling |}.

Definition heat (info : message) : message :=
  {| temperature := temperature info + 0.1;
     batteryCharge := batteryCharge info - 0.8;
     state := heating |}.

Definition cooling_guard (info : message) : bool :=
  (20 <? temperature info) && (20 <? batteryCharge info).

Definition heating_guard (info : message) : bool :=
  (temperature info <? 18) && (20 <? batteryCharge info).

Definition band_guard (info : message) : bool :=
  (temperature info <=? 20) || (18 <=? temperature info).

(** From [if(info.temperature<=20 or info.temperature>=18)] to the next
    suspension. *)
Definition from_band (pr : option message) (info : message) : coroutine :=
  if band_guard info then co_yield yield_band (set_state info charging)
  else run_off pr info.

(** From the test of the second [while] to the next suspension. *)
Definition from_heating (pr : option message) (info : message) : coroutine :=
  if heating_guard info then co_yield yield_heating (heat info)
  else from_band pr info.

(** From the test of the first [while] to the next suspension. *)
Definition from_cooling (pr : option message) (info : message) : coroutine :=
  if cooling_guard info then co_yield yield_cooling (cool info)
  else from_heating pr info.

(** [acclimate(info)]: [initial_suspend] returns [suspend_never], so the
    call itself runs the body up to the first suspension. *)
Definition acclimate (info : message) : coroutine :=
  if 20 <? batteryCharge info then from_cooling None info
  else co_yield yield_low (set_state info charging).

(** [handle()] on a coroutine made by [acclimate]: continue after the
    [co_yield] it is parked at, up to the next suspension.  Resuming a
    coroutine parked at its final suspend point is undefined: [None]. *)
Definition resume (c : coroutine) : option coroutine :=
  match parked c with
  | yield_cooling => Some (from_cooling (promise_info c) (frame c))
  | yield_heating => Some (from_heating (promise_info c) (frame c))
  | yield_band | yield_low => Some (run_off (promise_info c) (frame c))
  | final_suspend => None
  end.

(** Has the last resumption stopped at a [co_yield]? *)
Definition yielded (c : coroutine) : option message :=
  match parked c with
  | final_suspend => None
  | _ => promise_info c
  end.

(** The Readings a coroutine still yields when it is resumed until it
    parks at its final suspend point; [None] when [fuel] resumptions do
    not get there. *)
Fixpoint drain (fuel : nat) (c : coroutine) : option (list message) :=
  match parked c with
  | final_suspend => Some []
  | _ =>
    match fuel with
    | O => None
    | S fuel' =>
      match resume c with
      | None => None
      | Some c' =>
        match yielded c', drain fuel' c' with
        | Some m, Some l => Some (m :: l)
        | None, Some l => Some l
        | _, None => None
        end
      end
    end
  end.

(** All Readings produced by [acclimate(info)]: the one yielded by the
    call itself, then those of the resumptions. *)
Definition readings (fuel : nat) (info : message) : option (list message) :=
  let c := acclimate info in
  match drain fuel c with
  | Some l => Some (match yielded c with Some m => m :: l | None => l end)
  | None => None
  end.

(** ** charger *)

Definition charge (info : message) : message :=
  {| temperature := temperature info + 0.01;
     batteryCharge := batteryCharge info + 0.1;
     state := state info |}.

Definition charger_guard (info : message) : bool := batteryCharge info <? 94.9.

(** The [while] loop of [charger]; [None] when [fuel] iterations do not
    reach its exit. *)
Fixpoint charger_loop (fuel : nat) (info : message) : option message :=
  if charger_guard info then
    match fuel with
    | O => None
    | S fuel' => charger_loop fuel' (charge info)
    end
  else Some info.

(** [charger(info)]: the body runs at the call ([suspend_never]);
    [co_return info] stores the value through [return_value] and the
    coroutine parks at its final suspend point. *)
Definition charger (fuel : nat) (info : message) : option coroutine :=
  match charger_loop fuel info with
  | Some r => Some {| frame := r; parked := final_suspend; promise_info := Some r |}
  | None => None
  end.

(** ** init_values *)

(** An [int] in the range of [rand() % 100] converted to [double]. *)
Definition double_of_N (n : N) : float := of_uint63 (Uint63.of_Z (Z.of_N n)).

(** [init_values(p_info)], with [r1] and [r2] the results of its two
    calls of [rand()] ([rand] returns a non-negative [int]). *)
Definition init_values (r1 r2 : N) : message :=
  let t := double_of_N (r1 mod 55) in
  let b := double_of_N (r2 mod 100) in
  {| temperature := t;
     batteryCharge := b;
     state :=
       if (t <? 18) && (20 <? b) then heating
       else if (20 <? t) && (20 <? b) then cooling
       else if 20 <? b then finish
       else charging |}.

(** ** main *)

(** The variables of [main] that live across iterations: [info] and the
    coroutine behind [handle] ([promise] always points into that same
    coroutine, so reading [promise->info] is reading its promise).
    [handle2]/[promise2] are written and read within one [case]. *)
Record controller : Set := Controller {
  info : message;
  handle : option coroutine
}.

(** [info = promise->info] *)
Definition adopt (h : coroutine) : option message := promise_info h.

(** One iteration of the body of [while(info.state != 5)].  [None] is
    returned where the program has no defined next state: [handle()] or
    [promise->info] without a live, written coroutine, a [charger] loop
    that [fuel] iterations do not finish.  The [switch] has no [case] for
    [standby]: such an iteration would change nothing. *)
Definition main_step (fuel : nat) (r1 r2 : N) (c : controller) : option controller :=
  match state (info c) with
  | start =>
    let i := init_values r1 r2 in
    Some {| info := i; handle := Some (acclimate i) |}
  | cooling | heating =>
    match handle c with
    | None => None
    | Some h =>
      match resume h with
      | None => None
      | Some h' =>
        match adopt h' with
        | None => None
        | Some i => Some {| info := i; handle := Some h' |}
        end
      end
    end
  | finish =>
    Some {| info := set_state (info c) start; handle := handle c |}
  | charging =>
    match charger fuel (info c) with
    | None => None
    | Some h2 =>
      match adopt h2 with
      | None => None
      | Some i =>
        if temperature i <? 18 then
          let h := acclimate i in
          match adopt h with
          | None => None
          | Some i' => Some {| info := set_state i' heating; handle := Some h |}
          end
        else if 20 <? temperature i then
          Some {| info := set_state i cooling; handle := Some (acclimate i) |}
        else
          Some {| info := set_state i finish; handle := handle c |}
      end
    end
  | standby => Some c
  end.

(** The loop test [info.state != 5]. *)
Definition loop_guard (c : controller) : bool :=
  negb (Z.eqb (State_value (state (info c))) 5).

(** [main] before the loop: [info.state = start]; the two [double]s of
    [info] hold whatever the stack held ([t0], [b0]); no coroutine yet. *)
Definition main_init (t0 b0 : float) : controller :=
  {| info := {| temperature := t0; batteryCharge := b0; state := start |};
     handle := None |}.

(** The dispatch loop: [steps] iterations, iteration [k] drawing
    [rnd k] should it call [init_values]. *)
Inductive outcome : Set :=
  | Running (c : controller)   (* still in the loop after the iterations *)
  | Exited (c : controller)    (* the loop test failed *)
  | Stuck (c : controller).    (* no defined next state *)

Fixpoint run (fuel : nat) (rnd : nat -> N * N) (k steps : nat) (c : controller) : outcome :=
  match steps with
  | O => Running c
  | S steps' =>
    if loop_guard c then
      match main_step fuel (fst (rnd k)) (snd (rnd k)) c with
      | Some c' => run fuel rnd (S k) steps' c'
      | None => Stuck c
      end
    else Exited c
  end.

(** States the loop can be in: the initial one, and any defined
    successor, whatever [rand()] returns. *)
Inductive reachable : controller -> Prop :=
  | reach_init : forall t0 b0, reachable (main_init t0 b0)
  | reach_step : forall fuel r1 r2 c c',
      reachable c -> loop_guard c = true ->
      main_step fuel r1 r2 c = Some c' -> reachable c'.

(** ** Definitions used in the statements *)

(** What a coroutine has produced once it was drained: the Reading it
    was parked on, then the Readings of the resumptions. *)
Definition outputs (c : coroutine) (l : list message) : list message :=
  match yielded c with Some m => m :: l | None => l end.

(** The last Reading of a sequence is tagged [charging]. *)
Definition ends_charging (l : list message) : Prop :=
  exists l0 x, l = l0 ++ [x] /\ state x = charging.

(** Readings of a sequence that are tagged [cooling]. *)
Definition cooling_steps (l : list message) : nat :=
  length (filter (fun m => State_eqb (state m) cooling) l).

(** The step count the specification announces for the 25.0/50.0
    scenario, min(ceil((25.0-20)/0.1), floor((50.0-20)/0.8)), in exact
    rational arithmetic. *)
Definition claimed_cooling_steps : Z :=
  Z.min (Qceiling ((25 - 20) / (1 # 10))) (Qfloor ((50 - 20) / (8 # 10))).

(** [n] is the number of iterations [charger]'s loop makes from [m]. *)
Definition charger_result (m : message) (n : nat) : Prop :=
  let r := Nat.iter n charge m in
  (forall fuel, (n <= fuel)%nat -> charger_loop fuel m = Some r) /\
  (forall k, (k < n)%nat -> charger_guard (Nat.iter k charge m) = true) /\
  charger_guard r = false /\
  (94.9 <=? batteryCharge r) = true /\
  state r = state m.

(** A [rand()] sequence: 19 and 50 for the first [init_values], 25 and 60
    afterwards. *)
Definition draws_19_50_then_25_60 (k : nat) : N * N :=
  match k with O => (19, 50)%N | _ => (25, 60)%N end.

(** Invariant of the dispatch loop: neither [info] nor the promise of
    the coroutine behind [handle] carries [standby]. *)
Definition live (s : State) : Prop := s <> standby.

Definition promise_live (h : option coroutine) : Prop :=
  forall c m, h = Some c -> promise_info c = Some m -> live (state m).

Definition inv (c : controller) : Prop :=
  live (state (info c)) /\ promise_live (handle c).

(** *** binary64 values as integers

    A finite binary64 number is [m * 2^e] with [e >= -1074]; [Zval] is
    that number in units of [2^-1074]. *)
Definition Zval (x : spec_float) : Z :=
  match x with
  | S754_finite s m e => cond_Zopp s (Zpos m * 2 ^ (e + 1074))%Z
  | _ => 0%Z
  end.

Definition finite_or_zero (x : spec_float) : bool :=
  match x with
  | S754_finite _ _ _ | S754_zero _ => true
  | _ => false
  end.

Definition exp_ok (x : spec_float) : Prop :=
  match x with
  | S754_finite _ _ e => (-1074 <= e)%Z
  | _ => True
  end.

Definition fval (x : float) : Z := Zval (Prim2SF x).
Definition is_fin (x : float) : bool := finite_or_zero (Prim2SF x).
Definition not_nan (x : float) : Prop := Prim2SF x <> S754_nan.

(** [y] is lower than [x] by exactly the number the literal [d] denotes:
    the two represented numbers differ by the number [d] represents. *)
Definition exactly_lower (d x y : float) : Prop :=
  (fval x - fval y = fval d)%Z.

(** [y] is lower than [x] by exactly the decimal fraction [p/10]. *)
Definition tenths_lower (p : Z) (x y : float) : Prop :=
  (10 * (fval x - fval y) = p * 2 ^ 1074)%Z.

(** Bounds on [batteryCharge] within which the loops are shown to end:
    [-2^48] for [charger], [2^51] for [acclimate]. *)
Definition charge_floor : float := (-281474976710656)%float.
Definition charge_ceiling : float := 2251799813685248%float.

(** A coroutine reaches its final suspend point after finitely many
    resumptions, and what it produced ends with a [charging] Reading
    unless [t] is a NaN. *)
Definition finishes (c : coroutine) (t : float) : Prop :=
  exists fuel l, drain fuel c = Some l /\ (not_nan t -> ends_charging (outputs c l)).

(** *** Invariant behind the liveness of the dispatch loop

    A Reading is [good_reading] when its charge lies within the bounds
    above and its temperature is not a NaN.  A coroutine is [in_loop]
    when it is parked at the [co_yield] of one of the two loops of
    [acclimate], its promise holds the Reading of its frame, and that
    Reading is good.  [sound] is the invariant of [main]: outside
    [start] the Reading is good, and in [cooling] and [heating] the
    coroutine behind [handle] is [in_loop] (so [handle()] resumes a
    live coroutine).  [next_ok] describes the coroutine such a
    resumption leads to. *)
Definition good_reading (m : message) : Prop :=
  (charge_floor <=? batteryCharge m) = true /\
  (charge_ceiling <? batteryCharge m) = false /\
  not_nan (temperature m).

Definition in_loop (h : coroutine) : Prop :=
  (parked h = yield_cooling \/ parked h = yield_heating) /\
  promise_info h = Some (frame h) /\
  good_reading (frame h).

Definition sound (c : controller) : Prop :=
  state (info c) <> standby /\
  (state (info c) <> start -> good_reading (info c)) /\
  (state (info c) = cooling \/ state (info c) = heating ->
   exists h, handle c = Some h /\ in_loop h).

Definition next_ok (h' : coroutine) : Prop :=
  exists y, promise_info h' = Some y /\ frame h' = y /\ good_reading y /\
    ((state y = cooling /\ parked h' = yield_cooling) \/
     (state y = heating /\ parked h' = yield_heating) \/
     (state y = charging /\ parked h' = yield_band)).

(** *** Definitions for the properties of [init_values], [acclimate] and
    the regulation cycles *)

(** What is checked of every value [rand() % 55] or [rand() % 100] can
    take once it is converted to [double]: the conversion is exact, and
    the comparisons of [init_values] behave on it as on the integer. *)
Definition drawn_ok (n : N) : bool :=
  let x := double_of_N n in
  (Z.eqb (fval x) (Z.of_N n * 2 ^ 1074)) && is_fin x &&
  Bool.eqb (x <=? 20) (negb (20 <? x)) &&
  Bool.eqb (18 <=? x) (negb (x <? 18)) &&
  negb ((x <? 18) && (20 <? x)) &&
  (0 <=? x) && (x <=? 99) && ((x <=? 54) || (54 <? N.to_nat n)%nat).

(** Bound on the temperature ([2^48] in magnitude) within which a step
    of 0.1 cannot cross the whole band from 18 to 20. *)
Definition temp_ceiling : float := 281474976710656%float.

Definition temp_ok (t : float) : Prop :=
  (charge_floor <=? t) = true /\ (t <=? temp_ceiling) = true.

(** A Reading whose temperature lies in the band, unless the battery is
    low. *)
Definition regulated (x : message) : Prop :=
  (20 <? batteryCharge x) = true ->
  (18 <=? temperature x) = true /\ (temperature x <=? 20) = true.

(** A sequence of Readings tagged [s] closed by a [charging] Reading that
    is [regulated]. *)
Definition run_shape (s : State) (l : list message) : Prop :=
  exists l0 x, l = l0 ++ [x] /\ Forall (fun m => state m = s) l0 /\
    state x = charging /\ regulated x.

(** A Reading whose charge is above 19 (and within the bound of
    [acclimate]'s termination). *)
Definition reserve (m : message) : Prop :=
  (19 <? batteryCharge m) = true /\ (charge_ceiling <? batteryCharge m) = false.

(** The transitions of the mode from one iteration of the dispatch loop
    to the next. *)
Definition allowed (a b : State) : bool :=
  match a, b with
  | start, (heating | cooling | finish | charging) => true
  | cooling, (cooling | charging) => true
  | heating, (heating | charging) => true
  | charging, (heating | cooling | finish) => true
  | finish, start => true
  | _, _ => false
  end.

(** The range the Readings of [main] stay in. *)
Definition in_domain (m : message) : bool :=
  (0 <=? temperature m) && (temperature m <? 64) &&
  (0 <=? batteryCharge m) && (batteryCharge m <? 100).

Definition step_ok (c c' : controller) : bool :=
  allowed (state (info c)) (state (info c')) && in_domain (info c').

(** Iterations of [charger]'s loop and of the dispatch loop that suffice
    for one sequence, from [start] back to [start]. *)
Definition charger_fuel : nat := 1000.
Definition cycle_bound : nat := 2300.

(** Runs the dispatch loop from [c] until the mode is [start] again, for
    at most [n] iterations, checking every step with [step_ok].  (No
    iteration on the way calls [init_values], so the draws passed to
    [main_step] are not used.) *)
Fixpoint cycle_check (n : nat) (c : controller) : bool :=
  match state (info c) with
  | start => true
  | _ =>
    match n with
    | O => false
    | S n' =>
      match main_step charger_fuel 0 0 c with
      | Some c' => step_ok c c' && cycle_check n' c'
      | None => false
      end
    end
  end.

(** The pairs [(rand() % 55, rand() % 100)]. *)
Definition all_draws : list (N * N) :=
  list_prod (map N.of_nat (seq 0 55)) (map N.of_nat (seq 0 100)).

(** The state of [main] after the [start] case drew [d]. *)
Definition after_start (d : N * N) : controller :=
  let i := init_values (fst d) (snd d) in
  {| info := i; handle := Some (acclimate i) |}.

Definition draw_ok (d : N * N) : bool :=
  in_domain (info (after_start d)) && cycle_check cycle_bound (after_start d).

(** A state from which the current sequence ends within [cycle_bound]
    checked iterations. *)
Definition on_cycle (c : controller) : Prop :=
  (state (info c) <> start -> in_domain (info c) = true) /\
  exists n, (n <= cycle_bound)%nat /\ cycle_check n c = true.

(** * A small theory of binary64 ordering and rounding

    The program's loops end because every iteration moves
    [batteryCharge] by a fixed amount that rounding cannot absorb as
    long as the magnitude stays moderate.  This part derives, from the
    specification of the primitive operations ([SpecFloat] and the
    [FloatAxioms] relating it to [float]): comparisons decide the order
    of the represented values, and an addition or subtraction is within
    relative error [2^-52] of the exact result. *)

(** Case analysis on the comparisons inside [SFcompare]. *)
Ltac sf_cases :=
  repeat match goal with
  | s : bool |- _ => destruct s
  | |- context [Z.compare ?a ?b] => destruct (Z.compare_spec a b)
  | H : context [Z.compare ?a ?b] |- _ => destruct (Z.compare_spec a b)
  | |- context [Pos.compare_cont Eq ?a ?b] =>
      change (Pos.compare_cont Eq a b) with (Pos.compare a b);
      destruct (Pos.compare_spec a b)
  | H : context [Pos.compare_cont Eq ?a ?b] |- _ =>
      change (Pos.compare_cont Eq a b) with (Pos.compare a b) in H;
      destruct (Pos.compare_spec a b)
  end; simpl in *; try reflexivity; try discriminate; try lia.

Section Rounding.

#[local] Open Scope Z_scope.

(** *** Digits and shifts *)

Lemma digits2_size m : digits2_pos m = Pos.size m.
Proof. induction m; simpl; congruence. Qed.

Lemma digits2_log2 m : Zpos (digits2_pos m) = Z.log2 (Zpos m) + 1.
Proof.
  rewrite digits2_size. destruct m; simpl; try reflexivity; lia.
Qed.

Lemma shr_1_m r : 0 <= shr_m r -> shr_m (shr_1 r) = Z.shiftr (shr_m r) 1.
Proof.
  destruct r as [m r s]. simpl shr_m. intros H. rewrite <- Z.div2_spec.
  destruct m as [|[p|p|]|p]; try reflexivity; lia.
Qed.

(** [k] applications of [shr_1] shift the mantissa right by [k] bits. *)
Lemma iter_shr_m k : forall r, 0 <= shr_m r ->
  shr_m (SpecFloat.iter_pos shr_1 k r) = Z.shiftr (shr_m r) (Zpos k).
Proof.
  induction k as [k IH|k IH|]; intros r H; simpl SpecFloat.iter_pos.
  - assert (0 <= shr_m (shr_1 r)) as H1.
    { rewrite shr_1_m by assumption. now apply Z.shiftr_nonneg. }
    assert (0 <= shr_m (SpecFloat.iter_pos shr_1 k (shr_1 r))) as H2.
    { rewrite IH by assumption. now apply Z.shiftr_nonneg. }
    rewrite IH, IH, shr_1_m by assumption.
    rewrite !Z.shiftr_shiftr by lia. f_equal. lia.
  - assert (0 <= shr_m (SpecFloat.iter_pos shr_1 k r)) as H2.
    { rewrite IH by assumption. now apply Z.shiftr_nonneg. }
    rewrite IH, IH by assumption.
    rewrite !Z.shiftr_shiftr by lia. f_equal. lia.
  - now apply shr_1_m.
Qed.

Lemma round_nearest_even_bounds m l :
  m <= round_nearest_even m l <= m + 1.
Proof.
  destruct l as [|[]]; simpl; try lia. destruct (Z.even m); lia.
Qed.

Lemma shr_m_of_loc m l : shr_m (shr_record_of_loc m l) = m.
Proof. destruct l as [|[]]; reflexivity. Qed.

Lemma fexp64 e : fexp prec emax e = Z.max (e - 53) (-1074).
Proof. reflexivity. Qed.

(** [shr_fexp] shifts a mantissa of more than 53 digits down to 53 digits
    and leaves a shorter one alone (exponents at least [-1074]). *)
Lemma shr_fexp_spec (p : positive) ez l :
  -1074 <= ez ->
  let d := Z.log2 (Zpos p) + 1 in
  exists mrs e, shr_fexp prec emax (Zpos p) ez l = (mrs, e) /\
    ((d <= 53 /\ e = ez /\ mrs = shr_record_of_loc (Zpos p) l) \/
     (53 < d /\ e = ez + (d - 53) /\ shr_m mrs = Z.shiftr (Zpos p) (d - 53))).
Proof.
  intros He d. unfold shr_fexp, shr. cbn [Zdigits2].
  rewrite digits2_log2. fold d. rewrite fexp64.
  destruct (Z.max (d + ez - 53) (-1074) - ez) as [|k|k] eqn:Ek.
  - do 2 eexists. split; [reflexivity|]. left. repeat split. lia.
  - do 2 eexists. split; [reflexivity|]. right.
    assert (Zpos k = d - 53) as Hk by lia.
    repeat split; try lia.
    rewrite iter_shr_m; rewrite shr_m_of_loc; [now rewrite Hk|lia].
  - do 2 eexists. split; [reflexivity|]. left. repeat split. lia.
Qed.

(** *** Rounding error

    Rounding [p * 2^ez] to nearest-even gives a finite number within
    [2^-52] of it, relatively. *)
Lemma binary_round_aux_bounds s (p : positive) ez :
  -1074 <= ez -> Z.log2 (Zpos p) + ez <= 900 ->
  exists m e,
    binary_round_aux prec emax s (Zpos p) ez loc_Exact = S754_finite s m e /\
    -1074 <= e /\
    2 ^ 52 * Z.abs (Zpos m * 2 ^ (e + 1074) - Zpos p * 2 ^ (ez + 1074))
      <= Zpos p * 2 ^ (ez + 1074).
Proof.
  intros He Hsz. unfold binary_round_aux.
  assert (0 <= Z.log2 (Zpos p)) as Hlog by apply Z.log2_nonneg.
  assert (0 < 2 ^ (ez + 1074)) as HA by (apply Z.pow_pos_nonneg; lia).
  destruct (shr_fexp_spec p ez loc_Exact He) as (mrs & e & E & [(Hd & -> & ->)|(Hd & -> & Hm)]);
    rewrite E; clear E.
  - (* no shift: the value is representable *)
    cbn [shr_record_of_loc shr_m loc_of_shr_record round_nearest_even].
    destruct (shr_fexp_spec p ez loc_Exact He) as (mrs & e & E & [(_ & -> & ->)|(Hd' & _)]);
      [|lia]. rewrite E. cbn [shr_record_of_loc shr_m].
    replace (ez <=? emax - prec) with true by (symmetry; apply Z.leb_le; cbn; lia).
    exists p, ez. repeat split; [lia|].
    rewrite Z.sub_diag. cbn [Z.abs]. nia.
  - (* shift by K = digits - 53, then round *)
    set (K := Z.log2 (Zpos p) + 1 - 53) in *.
    set (m1 := shr_m mrs) in *.
    assert (0 < K) as HK by lia.
    assert (0 < 2 ^ K) as HPK by (apply Z.pow_pos_nonneg; lia).
    assert (Z.log2 m1 = 52) as Hl1.
    { rewrite Hm, Z.log2_shiftr by lia. lia. }
    assert (0 < m1) as Hm1pos.
    { destruct (Z.log2_null m1) as [_ F]. destruct (Z_lt_le_dec 0 m1); [assumption|]. 
      rewrite F in Hl1 by lia. discriminate. }
    destruct (Z.log2_spec m1 Hm1pos) as [Hlo Hhi]. rewrite Hl1 in Hlo, Hhi.
    change (Z.succ 52) with 53 in Hhi.
    pose proof (round_nearest_even_bounds m1 (loc_of_shr_record mrs)) as Hr.
    set (m2 := round_nearest_even m1 (loc_of_shr_record mrs)) in *.
    assert (m1 * 2 ^ K <= Zpos p < (m1 + 1) * 2 ^ K) as Hdiv.
    { rewrite Hm, Z.shiftr_div_pow2 by lia.
      pose proof (Z.mul_div_le (Zpos p) (2 ^ K) HPK).
      pose proof (Z.mul_succ_div_gt (Zpos p) (2 ^ K) HPK). lia. }
    assert (2 ^ (ez + K + 1074) = 2 ^ K * 2 ^ (ez + 1074)) as Hpow.
    { replace (ez + K + 1074) with (K + (ez + 1074)) by lia.
      apply Z.pow_add_r; lia. }
    assert (2 ^ 52 * 2 ^ K <= Zpos p) as Hbig.
    { destruct (Z.log2_spec (Zpos p)) as [L _]; [lia|].
      replace (Z.log2 (Zpos p)) with (52 + K) in L by lia.
      rewrite Z.pow_add_r in L by lia. exact L. }
    destruct m2 as [|q|q] eqn:Eq; try lia.
    assert (-1074 <= ez + K) as He1 by lia.
    destruct (shr_fexp_spec q (ez + K) loc_Exact He1)
      as (mrs2 & e2 & E2 & [(Hd2 & -> & ->)|(Hd2 & -> & Hm2)]); rewrite E2; clear E2.
    + cbn [shr_record_of_loc shr_m].
      replace (ez + K <=? emax - prec) with true by (symmetry; apply Z.leb_le; cbn; lia).
      exists q, (ez + K). repeat split; [lia|].
      rewrite Hpow. 
      replace (Zpos q * (2 ^ K * 2 ^ (ez + 1074)) - Zpos p * 2 ^ (ez + 1074))
        with ((Zpos q * 2 ^ K - Zpos p) * 2 ^ (ez + 1074)) by ring.
      rewrite Z.abs_mul, (Z.abs_eq (2 ^ (ez + 1074))) by lia.
      assert (Z.abs (Zpos q * 2 ^ K - Zpos p) <= 2 ^ K) by nia.
      nia.
    + (* the rounded mantissa reached 2^53 *)
      assert (Zpos q = 2 ^ 53) as Hq.
      { assert (53 <= Z.log2 (Zpos q)) as L by lia.
        apply Z.log2_le_pow2 in L; lia. }
      replace (Z.log2 (Zpos q) + 1 - 53) with 1 in * by (now rewrite Hq).
      rewrite Hq in Hm2. change (Z.shiftr (2 ^ 53) 1) with (2 ^ 52) in Hm2.
      rewrite Hm2. change (2 ^ 52) with (Zpos (2 ^ 52)) at 1.
      cbv iota.
      replace (ez + K + 1 <=? emax - prec) with true by (symmetry; apply Z.leb_le; cbn; lia).
      exists (2 ^ 52)%positive, (ez + K + 1). repeat split; [lia|].
      assert (Zpos (2 ^ 52) * 2 ^ (ez + K + 1 + 1074) = Zpos q * 2 ^ (ez + K + 1074)) as HR.
      { rewrite Hq. replace (ez + K + 1 + 1074) with (1 + (ez + K + 1074)) by lia.
        rewrite Z.pow_add_r by lia.
        change (Zpos (2 ^ 52)) with (2 ^ 52). change (2 ^ 53) with (2 ^ 52 * 2 ^ 1). ring. }
      rewrite HR, Hpow.
      replace (Zpos q * (2 ^ K * 2 ^ (ez + 1074)) - Zpos p * 2 ^ (ez + 1074))
        with ((Zpos q * 2 ^ K - Zpos p) * 2 ^ (ez + 1074)) by ring.
      rewrite Z.abs_mul, (Z.abs_eq (2 ^ (ez + 1074))) by lia.
      assert (Z.abs (Zpos q * 2 ^ K - Zpos p) <= 2 ^ K) by nia.
      nia.
Qed.

Lemma iter_xO m d : Zpos (Pos.iter xO m d) = Zpos m * 2 ^ Zpos d.
Proof.
  induction d as [|d IH] using Pos.peano_ind.
  - cbn. lia.
  - rewrite Pos.iter_succ, Pos2Z.inj_succ, Z.pow_succ_r by lia.
    rewrite Pos2Z.inj_xO, IH. ring.
Qed.

Lemma shl_align_spec mx ex ex' :
  exists mz ez, shl_align mx ex ex' = (mz, ez) /\
    ez = Z.min ex ex' /\ Zpos mz = Zpos mx * 2 ^ (ex - ez).
Proof.
  unfold shl_align. destruct (ex' - ex) as [|d|d] eqn:E.
  - exists mx, ex. repeat split; [lia|]. replace (ex - ex) with 0 by lia. cbn. lia.
  - exists mx, ex. repeat split; [lia|]. replace (ex - ex) with 0 by lia. cbn. lia.
  - exists (Pos.iter xO mx d), ex'. repeat split; [lia|].
    rewrite iter_xO. f_equal. f_equal. lia.
Qed.

Lemma pow_split a b : 0 <= a -> 0 <= b -> 2 ^ (a + b) = 2 ^ a * 2 ^ b.
Proof. intros. apply Z.pow_add_r; lia. Qed.

Lemma binary_round_bounds s (mx : positive) ex :
  -1074 <= ex -> Z.log2 (Zpos mx) + ex <= 900 ->
  exists m e,
    binary_round prec emax s mx ex = S754_finite s m e /\
    -1074 <= e /\
    2 ^ 52 * Z.abs (Zpos m * 2 ^ (e + 1074) - Zpos mx * 2 ^ (ex + 1074))
      <= Zpos mx * 2 ^ (ex + 1074).
Proof.
  intros He Hsz. unfold binary_round.
  destruct (shl_align_spec mx ex (fexp prec emax (Zpos (digits2_pos mx) + ex)))
    as (mz & ez & E & Hez & Hmz).
  rewrite E. rewrite fexp64 in Hez.
  assert (-1074 <= ez <= ex) as Hr by lia.
  assert (Zpos mz * 2 ^ (ez + 1074) = Zpos mx * 2 ^ (ex + 1074)) as Hv.
  { rewrite Hmz. replace (ex + 1074) with ((ex - ez) + (ez + 1074)) by lia.
    rewrite (pow_split (ex - ez)) by lia. ring. }
  assert (Z.log2 (Zpos mz) + ez = Z.log2 (Zpos mx) + ex) as Hl.
  { rewrite Hmz, Z.log2_mul_pow2 by lia. lia. }
  rewrite <- Hv. apply binary_round_aux_bounds; lia.
Qed.

Lemma binary_normalize_bounds N e :
  -1074 <= e -> Z.log2 (Z.abs N) + e <= 900 ->
  let r := binary_normalize prec emax N e false in
  finite_or_zero r = true /\
  2 ^ 52 * Z.abs (Zval r - N * 2 ^ (e + 1074)) <= Z.abs N * 2 ^ (e + 1074).
Proof.
  intros He Hsz. destruct N as [|p|p]; cbn [binary_normalize].
  - split; [reflexivity|]. cbn. lia.
  - destruct (binary_round_bounds false p e He Hsz) as (m & e' & -> & _ & H).
    split; [reflexivity|]. exact H.
  - destruct (binary_round_bounds true p e He Hsz) as (m & e' & -> & _ & H).
    split; [reflexivity|]. cbn [Zval cond_Zopp Z.abs].
    replace (- (Zpos m * 2 ^ (e' + 1074)) - Zneg p * 2 ^ (e + 1074))
      with (- (Zpos m * 2 ^ (e' + 1074) - Zpos p * 2 ^ (e + 1074))) by lia.
    now rewrite Z.abs_opp.
Qed.

(** The sum of two finite numbers is finite and within relative error
    [2^-52] of the exact sum, as long as that sum is far from overflow. *)
Lemma SFadd_bounds x y :
  finite_or_zero x = true -> finite_or_zero y = true -> exp_ok x -> exp_ok y ->
  Z.abs (Zval x + Zval y) < 2 ^ 1974 ->
  let r := SF64add x y in
  finite_or_zero r = true /\
  2 ^ 52 * Z.abs (Zval r - (Zval x + Zval y)) <= Z.abs (Zval x + Zval y).
Proof.
  intros Fx Fy Ex Ey Hsz.
  destruct x as [sx| |  |sx mx ex]; try discriminate;
  destruct y as [sy| |  |sy my ey]; try discriminate;
  unfold SF64add; cbn [SFadd].
  - split; [now destruct sx, sy|]. replace (Zval _) with 0 by now destruct sx, sy.
    cbn. lia.
  - split; [reflexivity|]. cbn [Zval]. rewrite Z.add_0_l, Z.sub_diag. cbn [Z.abs]. lia.
  - split; [reflexivity|]. cbn [Zval]. rewrite Z.add_0_r, Z.sub_diag. cbn [Z.abs]. lia.
  - cbn [exp_ok] in Ex, Ey. cbn [Zval] in Hsz |- *.
    set (ez := Z.min ex ey).
    destruct (shl_align_spec mx ex ez) as (ax & e1 & -> & He1 & Hax).
    destruct (shl_align_spec my ey ez) as (ay & e2 & -> & He2 & Hay).
    cbn [fst].
    replace e1 with ez in * by lia. replace e2 with ez in * by lia.
    clear He1 He2.
    set (N := cond_Zopp sx (Zpos ax) + cond_Zopp sy (Zpos ay)).
    assert (0 < 2 ^ (ez + 1074)) as HA by (apply Z.pow_pos_nonneg; lia).
    assert (N * 2 ^ (ez + 1074)
            = cond_Zopp sx (Zpos mx * 2 ^ (ex + 1074)) + cond_Zopp sy (Zpos my * 2 ^ (ey + 1074))) as HN.
    { unfold N. rewrite Hax, Hay.
      replace (ex + 1074) with ((ex - ez) + (ez + 1074)) by lia.
      replace (ey + 1074) with ((ey - ez) + (ez + 1074)) by lia.
      rewrite (pow_split (ex - ez) (ez + 1074)), (pow_split (ey - ez) (ez + 1074)) by lia.
      destruct sx, sy; cbn [cond_Zopp]; ring. }
    rewrite <- HN in *.
    destruct (Z.eq_dec N 0) as [E0|NE].
    + rewrite E0. cbn. split; [reflexivity|lia].
    + rewrite Z.abs_mul, (Z.abs_eq (2 ^ (ez + 1074))) in * by lia.
      apply binary_normalize_bounds; [lia|].
      destruct (Z.log2_spec (Z.abs N)) as [L _]; [lia|].
      assert (2 ^ (Z.log2 (Z.abs N) + (ez + 1074)) < 2 ^ 1974) as P.
      { rewrite pow_split by (try apply Z.log2_nonneg; lia). nia. }
      apply Z.pow_lt_mono_r_iff in P; lia.
Qed.

Lemma SFsub_add_opp x y :
  finite_or_zero x = true -> finite_or_zero y = true ->
  SF64sub x y = SF64add x (SFopp y).
Proof.
  destruct x as [sx| |  |sx mx ex]; try discriminate;
  destruct y as [sy| |  |sy my ey]; try discriminate; intros _ _;
  unfold SF64sub, SF64add; cbn [SFsub SFadd SFopp]; try reflexivity.
  - now destruct sx, sy.
  - f_equal. destruct sy; cbn [negb cond_Zopp]; lia.
Qed.

(** *** Comparison is the order of the values

    In a valid binary64 number the mantissa has at most 53 digits, and
    exactly 53 unless the exponent is the least one. *)
Lemma valid_finite s m e :
  valid_binary (S754_finite s m e) = true ->
  -1074 <= e /\ Zpos m < 2 ^ 53 /\ (-1074 < e -> 2 ^ 52 <= Zpos m).
Proof.
  cbn [SpecFloat.valid_binary]. unfold bounded, canonical_mantissa.
  rewrite fexp64, digits2_log2. intros H.
  apply andb_true_iff in H. destruct H as [H _]. apply Z.eqb_eq in H.
  destruct (Z.log2_spec (Zpos m)) as [Lo Hi]; [lia|].
  split; [lia|]. split.
  - apply Z.log2_lt_pow2; lia.
  - intros He. replace (Z.log2 (Zpos m)) with 52 in Lo by lia. exact Lo.
Qed.

Lemma canonical_lt s1 m1 e1 s2 m2 e2 :
  valid_binary (S754_finite s1 m1 e1) = true ->
  valid_binary (S754_finite s2 m2 e2) = true ->
  e1 < e2 ->
  Zpos m1 * 2 ^ (e1 + 1074) < Zpos m2 * 2 ^ (e2 + 1074).
Proof.
  intros V1 V2 He.
  destruct (valid_finite _ _ _ V1) as (E1 & U1 & _).
  destruct (valid_finite _ _ _ V2) as (E2 & _ & L2).
  specialize (L2 ltac:(lia)).
  assert (0 < 2 ^ (e1 + 1074)) as HA by (apply Z.pow_pos_nonneg; lia).
  assert (0 < 2 ^ (e2 - e1 - 1)) as HB by (apply Z.pow_pos_nonneg; lia).
  replace (e2 + 1074) with ((e2 - e1 - 1) + (1 + (e1 + 1074))) by lia.
  rewrite (pow_split (e2 - e1 - 1)), (pow_split 1) by lia.
  change (2 ^ 1) with 2.
  set (A := 2 ^ (e1 + 1074)) in *. set (B := 2 ^ (e2 - e1 - 1)) in *.
  assert (Zpos m1 * A < 2 ^ 53 * A) as S1 by (apply Z.mul_lt_mono_pos_r; assumption).
  assert (2 ^ 52 * 1 <= Zpos m2 * B) as S2 by (apply Z.mul_le_mono_nonneg; lia).
  replace (Zpos m2 * (B * (2 * A))) with ((Zpos m2 * B) * (2 * A)) by ring.
  assert (2 ^ 52 * 1 * (2 * A) <= Zpos m2 * B * (2 * A)) as S3
    by (apply Z.mul_le_mono_nonneg_r; lia).
  change (2 ^ 53) with (2 ^ 52 * 2) in S1. lia.
Qed.

(** On valid finite numbers [SFcompare] compares the values. *)
Lemma Zval_compare x y :
  valid_binary x = true -> valid_binary y = true ->
  finite_or_zero x = true -> finite_or_zero y = true ->
  SFcompare x y = Some (Zval x ?= Zval y).
Proof.
  intros Vx Vy Fx Fy.
  destruct x as [sx| |  |sx mx ex]; try discriminate;
  destruct y as [sy| |  |sy my ey]; try discriminate;
  cbn [SFcompare Zval]; f_equal; try reflexivity; symmetry.
  - assert (0 < Zpos my * 2 ^ (ey + 1074)).
    { destruct (valid_finite _ _ _ Vy). apply Z.mul_pos_pos; [lia|apply Z.pow_pos_nonneg; lia]. }
    destruct sy; cbn [cond_Zopp]; [apply Z.compare_gt_iff|apply Z.compare_lt_iff]; lia.
  - assert (0 < Zpos mx * 2 ^ (ex + 1074)).
    { destruct (valid_finite _ _ _ Vx). apply Z.mul_pos_pos; [lia|apply Z.pow_pos_nonneg; lia]. }
    destruct sx; cbn [cond_Zopp]; [apply Z.compare_lt_iff|apply Z.compare_gt_iff]; lia.
  - assert (0 < 2 ^ (ex + 1074)) as HA.
    { destruct (valid_finite _ _ _ Vx). apply Z.pow_pos_nonneg; lia. }
    assert (0 < 2 ^ (ey + 1074)) as HB.
    { destruct (valid_finite _ _ _ Vy). apply Z.pow_pos_nonneg; lia. }
    assert (ex < ey -> Zpos mx * 2 ^ (ex + 1074) < Zpos my * 2 ^ (ey + 1074)) as Lt1
      by (apply (canonical_lt sx mx ex sy my ey); assumption).
    assert (ey < ex -> Zpos my * 2 ^ (ey + 1074) < Zpos mx * 2 ^ (ex + 1074)) as Lt2
      by (apply (canonical_lt sy my ey sx mx ex); assumption).
    assert (ex = ey ->
            (Zpos mx * 2 ^ (ex + 1074) ?= Zpos my * 2 ^ (ey + 1074)) = (mx ?= my)%positive) as Eq1.
    { intros ->. destruct (Pos.compare_spec mx my) as [E|E|E].
      - subst. apply Z.compare_refl.
      - apply Z.compare_lt_iff. apply Z.mul_lt_mono_pos_r; [assumption|lia].
      - apply Z.compare_gt_iff. apply Z.mul_lt_mono_pos_r; [assumption|lia]. }
    change (Pos.compare_cont Eq mx my) with (mx ?= my)%positive.
    destruct sx, sy; cbn [cond_Zopp].
    + rewrite Z.compare_opp.
      destruct (Z.compare_spec ex ey) as [E|E|E].
      * rewrite Z.compare_antisym, (Eq1 E). reflexivity.
      * apply Z.compare_gt_iff. lia.
      * apply Z.compare_lt_iff. lia.
    + apply Z.compare_lt_iff. nia.
    + apply Z.compare_gt_iff. nia.
    + destruct (Z.compare_spec ex ey) as [E|E|E].
      * exact (Eq1 E).
      * apply Z.compare_lt_iff. lia.
      * apply Z.compare_gt_iff. lia.
Qed.

Lemma Zval_ltb x y :
  valid_binary x = true -> valid_binary y = true ->
  finite_or_zero x = true -> finite_or_zero y = true ->
  SFltb x y = (Zval x <? Zval y).
Proof.
  intros. unfold SFltb, Z.ltb. now rewrite Zval_compare.
Qed.

Lemma Zval_leb x y :
  valid_binary x = true -> valid_binary y = true ->
  finite_or_zero x = true -> finite_or_zero y = true ->
  SFleb x y = (Zval x <=? Zval y).
Proof.
  intros. unfold SFleb, Z.leb. rewrite Zval_compare by assumption.
  now destruct (Zval x ?= Zval y).
Qed.

(** *** Rounding never produces a NaN *)
Lemma shr_fexp_nonneg m e l :
  0 <= m -> 0 <= shr_m (fst (shr_fexp prec emax m e l)).
Proof.
  intros H. unfold shr_fexp, shr.
  destruct (fexp prec emax (Zdigits2 m + e) - e) as [|k|k]; cbn [fst];
    rewrite ?iter_shr_m, ?shr_m_of_loc; try assumption.
  - now apply Z.shiftr_nonneg.
  - now rewrite shr_m_of_loc.
Qed.

Lemma binary_round_aux_not_nan s m e l :
  0 <= m -> binary_round_aux prec emax s m e l <> S754_nan.
Proof.
  intros H. unfold binary_round_aux.
  pose proof (shr_fexp_nonneg m e l H) as H1.
  destruct (shr_fexp prec emax m e l) as [mrs e1]. cbn [fst] in H1.
  pose proof (round_nearest_even_bounds (shr_m mrs) (loc_of_shr_record mrs)) as H2.
  pose proof (shr_fexp_nonneg (round_nearest_even (shr_m mrs) (loc_of_shr_record mrs))
                e1 loc_Exact ltac:(lia)) as H3.
  destruct (shr_fexp prec emax _ e1 loc_Exact) as [mrs2 e2]. cbn [fst] in H3.
  destruct (shr_m mrs2); try lia; try discriminate.
  destruct (e2 <=? emax - prec); discriminate.
Qed.

Lemma binary_normalize_not_nan N e : binary_normalize prec emax N e false <> S754_nan.
Proof.
  destruct N; cbn [binary_normalize]; try discriminate;
    unfold binary_round; destruct (shl_align _ _ _);
    apply binary_round_aux_not_nan; lia.
Qed.

Lemma SFadd_not_nan x y :
  x <> S754_nan -> finite_or_zero y = true -> SF64add x y <> S754_nan.
Proof.
  intros Hx Fy. destruct y as [sy| |  |sy my ey]; try discriminate;
    destruct x as [sx|sx|  |sx mx ex]; try congruence; unfold SF64add; cbn [SFadd];
    try discriminate.
  - destruct sx, sy; discriminate.
  - apply binary_normalize_not_nan.
Qed.

Lemma SFsub_not_nan x y :
  x <> S754_nan -> finite_or_zero y = true -> SF64sub x y <> S754_nan.
Proof.
  intros Hx Fy. destruct y as [sy| |  |sy my ey]; try discriminate;
    destruct x as [sx|sx|  |sx mx ex]; try congruence; unfold SF64sub; cbn [SFsub];
    try discriminate.
  - destruct sx, sy; discriminate.
  - apply binary_normalize_not_nan.
Qed.

(** *** Order facts that hold for all numbers, NaN and infinities included *)

Lemma SFltb_asym a b : SFltb a b = true -> SFltb b a = false.
Proof. unfold SFltb, SFcompare. destruct a, b; sf_cases. Qed.

Lemma SFleb_not_ltb a b : SFleb a b = true -> SFltb b a = false.
Proof. unfold SFleb, SFltb, SFcompare. destruct a, b; sf_cases. Qed.

Lemma SFltb_trans a b c : SFltb a b = true -> SFltb b c = true -> SFltb a c = true.
Proof. unfold SFltb, SFcompare. destruct a, b, c; sf_cases. Qed.

Lemma float_ltb_trans x y z : (x <? y)%float = true -> (y <? z)%float = true -> (x <? z)%float = true.
Proof. rewrite !FloatAxioms.ltb_spec. apply SFltb_trans. Qed.

Lemma float_leb_not_ltb x y : (x <=? y)%float = true -> (y <? x)%float = false.
Proof. rewrite FloatAxioms.leb_spec, FloatAxioms.ltb_spec. apply SFleb_not_ltb. Qed.

Lemma above_20_not_below_18 t : (20 <? t)%float = true -> (t <? 18)%float = false.
Proof.
  intros H. destruct (t <? 18)%float eqn:E; [|reflexivity].
  pose proof (float_ltb_trans _ _ _ H E) as F. vm_compute in F. discriminate.
Qed.

Lemma below_18_not_above_20 t : (t <? 18)%float = true -> (20 <? t)%float = false.
Proof.
  intros H. destruct (20 <? t)%float eqn:E; [|reflexivity].
  pose proof (float_ltb_trans _ _ _ E H) as F. vm_compute in F. discriminate.
Qed.

(** *** Primitive floats through their specification *)

Lemma Prim2SF_exp_ok x : exp_ok (Prim2SF x).
Proof.
  pose proof (Prim2SF_valid x) as V. destruct (Prim2SF x); cbn; trivial.
  now destruct (valid_finite _ _ _ V).
Qed.

Lemma float_ltb_fval x y :
  is_fin x = true -> is_fin y = true -> (x <? y)%float = (fval x <? fval y).
Proof.
  intros. rewrite FloatAxioms.ltb_spec. apply Zval_ltb; auto using Prim2SF_valid.
Qed.

Lemma float_leb_fval x y :
  is_fin x = true -> is_fin y = true -> (x <=? y)%float = (fval x <=? fval y).
Proof.
  intros. rewrite FloatAxioms.leb_spec. apply Zval_leb; auto using Prim2SF_valid.
Qed.

Lemma float_add_fval x y :
  is_fin x = true -> is_fin y = true -> Z.abs (fval x + fval y) < 2 ^ 1974 ->
  is_fin (x + y) = true /\
  2 ^ 52 * Z.abs (fval (x + y) - (fval x + fval y)) <= Z.abs (fval x + fval y).
Proof.
  intros Fx Fy Hs. unfold is_fin, fval. rewrite FloatAxioms.add_spec.
  apply SFadd_bounds; auto using Prim2SF_exp_ok.
Qed.

Lemma Zval_opp x : Zval (SFopp x) = - Zval x.
Proof. destruct x as [| | |[] m e]; cbn; lia. Qed.

Lemma float_sub_fval x y :
  is_fin x = true -> is_fin y = true -> Z.abs (fval x - fval y) < 2 ^ 1974 ->
  is_fin (x - y) = true /\
  2 ^ 52 * Z.abs (fval (x - y) - (fval x - fval y)) <= Z.abs (fval x - fval y).
Proof.
  intros Fx Fy Hs. unfold is_fin, fval in *. rewrite FloatAxioms.sub_spec, SFsub_add_opp by assumption.
  assert (Zval (Prim2SF x) - Zval (Prim2SF y) = Zval (Prim2SF x) + Zval (SFopp (Prim2SF y))) as E
    by (rewrite Zval_opp; lia).
  rewrite E in *. apply SFadd_bounds; auto using Prim2SF_exp_ok.
  - now destruct (Prim2SF y).
  - pose proof (Prim2SF_exp_ok y). now destruct (Prim2SF y).
Qed.

Lemma SFcompare_refl x : x <> S754_nan -> SFcompare x x = Some Eq.
Proof.
  destruct x as [s|s| |s m e]; try congruence; intros _; cbn; try reflexivity.
  - now destruct s.
  - rewrite Z.compare_refl. change (Pos.compare_cont Eq m m) with (m ?= m)%positive.
    rewrite Pos.compare_refl. now destruct s.
Qed.

Lemma eqb_refl_not_nan x : (x =? x)%float = true <-> not_nan x.
Proof.
  rewrite FloatAxioms.eqb_spec. unfold SFeqb, not_nan. split.
  - intros H E. rewrite E in H. discriminate.
  - intros H. now rewrite SFcompare_refl.
Qed.

Lemma float_add_not_nan x y : not_nan x -> is_fin y = true -> not_nan (x + y).
Proof. unfold not_nan, is_fin. rewrite FloatAxioms.add_spec. apply SFadd_not_nan. Qed.

Lemma float_sub_not_nan x y : not_nan x -> is_fin y = true -> not_nan (x - y).
Proof. unfold not_nan, is_fin. rewrite FloatAxioms.sub_spec. apply SFsub_not_nan. Qed.

Lemma SF_fin_between l x u :
  finite_or_zero l = true -> finite_or_zero u = true ->
  SFleb l x = true -> SFleb x u = true -> finite_or_zero x = true.
Proof.
  unfold SFleb, SFcompare.
  destruct l as [?|?| |[] ? ?], u as [?|?| |[] ? ?], x as [?|[]| |? ? ?]; try discriminate; reflexivity.
Qed.

Lemma SFltb_leb x y : SFltb x y = true -> SFleb x y = true.
Proof. unfold SFltb, SFleb. now destruct (SFcompare x y) as [[]|]. Qed.

Lemma SF_total x y :
  x <> S754_nan -> y <> S754_nan -> SFltb x y = false -> SFleb y x = true.
Proof.
  intros Hx Hy. unfold SFltb, SFleb, SFcompare.
  destruct x as [?|[]| |[] ? ?], y as [?|[]| |[] ? ?]; try congruence;
  repeat match goal with
  | |- context [Z.compare ?a ?b] => destruct (Z.compare_spec a b)
  | |- context [Pos.compare_cont Eq ?a ?b] =>
      change (Pos.compare_cont Eq a b) with (Pos.compare a b);
      destruct (Pos.compare_spec a b)
  end; cbn; try reflexivity; try discriminate; try lia.
Qed.

Lemma SFltb_not_nan_r x y : SFltb x y = true -> y <> S754_nan.
Proof. unfold SFltb, SFcompare. intros H E. subst. now destruct x. Qed.

Lemma SFleb_not_nan_r x y : SFleb x y = true -> y <> S754_nan.
Proof. unfold SFleb, SFcompare. intros H E. subst. now destruct x. Qed.

(** *** The constants of the program *)

Lemma fval_0_1 : fval 0.1 = 7205759403792794 * 2 ^ 1018.
Proof. reflexivity. Qed.
Lemma fval_94_9 : fval 94.9 = 6677993822460314 * 2 ^ 10 * 2 ^ 1018.
Proof. reflexivity. Qed.
Lemma fval_floor : fval charge_floor = - 2 ^ 104 * 2 ^ 1018.
Proof. reflexivity. Qed.
Lemma fval_0_8 : fval 0.8 = 7205759403792794 * 2 ^ 1021.
Proof. reflexivity. Qed.
Lemma fval_20 : fval 20 = 20 * 2 ^ 53 * 2 ^ 1021.
Proof. reflexivity. Qed.
Lemma fval_ceiling : fval charge_ceiling = 2 ^ 104 * 2 ^ 1021.
Proof. reflexivity. Qed.

Lemma float_fin_between l x u :
  is_fin l = true -> is_fin u = true ->
  (l <=? x)%float = true -> (x <=? u)%float = true -> is_fin x = true.
Proof. unfold is_fin. rewrite !FloatAxioms.leb_spec. apply SF_fin_between. Qed.

Lemma float_ltb_leb x y : (x <? y)%float = true -> (x <=? y)%float = true.
Proof. rewrite FloatAxioms.ltb_spec, FloatAxioms.leb_spec. apply SFltb_leb. Qed.

Lemma float_not_ltb_leb x y :
  not_nan x -> not_nan y -> (x <? y)%float = false -> (y <=? x)%float = true.
Proof. unfold not_nan. rewrite FloatAxioms.ltb_spec, FloatAxioms.leb_spec. apply SF_total. Qed.

Lemma float_ltb_not_nan x y : (x <? y)%float = true -> not_nan y.
Proof. unfold not_nan. rewrite FloatAxioms.ltb_spec. apply SFltb_not_nan_r. Qed.

Lemma float_leb_not_nan x y : (x <=? y)%float = true -> not_nan y.
Proof. unfold not_nan. rewrite FloatAxioms.leb_spec. apply SFleb_not_nan_r. Qed.

(** One iteration of [charger]'s loop, started between [-2^48] and 94.9,
    strictly increases the charge and keeps it within the bounds. *)
Lemma charge_progress b :
  (charge_floor <=? b)%float = true -> (b <? 94.9)%float = true ->
  is_fin (b + 0.1) = true /\ fval b < fval (b + 0.1) /\
  (charge_floor <=? b + 0.1)%float = true /\
  (is_fin b = true /\ fval b < fval 94.9) /\
  (charge_ceiling <? b + 0.1)%float = false.
Proof.
  intros Hl Hu.
  assert (is_fin b = true) as Fb.
  { apply (float_fin_between charge_floor b 94.9); auto using float_ltb_leb. }
  rewrite float_leb_fval in Hl by auto. rewrite float_ltb_fval in Hu by auto.
  apply Z.leb_le in Hl. apply Z.ltb_lt in Hu.
  assert (2 ^ 106 * 2 ^ 1018 < 2 ^ 1974) as Hbig by (vm_compute; reflexivity).
  assert (0 < 2 ^ 1018) as HW by (vm_compute; reflexivity).
  rewrite fval_floor in Hl. rewrite fval_94_9 in Hu.
  destruct (float_add_fval b 0.1 Fb eq_refl) as [Fb' Hr].
  { rewrite fval_0_1. set (W := 2 ^ 1018) in *. lia. }
  rewrite fval_0_1 in Hr.
  assert (fval b < fval (b + 0.1) < 2 ^ 107 * 2 ^ 1018) as Hp.
  { set (W := 2 ^ 1018) in *. lia. }
  repeat split; auto; try lia.
  - rewrite float_leb_fval by auto. apply Z.leb_le. rewrite fval_floor. lia.
  - rewrite float_ltb_fval by auto. apply Z.ltb_ge.
    change (fval charge_ceiling) with (2 ^ 107 * 2 ^ 1018). lia.
Qed.

(** One cooling or heating step, started between 20 and [2^51],
    strictly decreases the charge and keeps it within the bounds. *)
Lemma drain_progress b :
  (20 <? b)%float = true -> (charge_ceiling <? b)%float = false ->
  is_fin (b - 0.8) = true /\ 0 <= fval (b - 0.8) < fval b /\
  (charge_ceiling <? b - 0.8)%float = false /\
  (charge_floor <=? b - 0.8)%float = true.
Proof.
  intros Hl Hu.
  apply float_not_ltb_leb in Hu; [|discriminate|now apply (float_ltb_not_nan 20)].
  assert (is_fin b = true) as Fb.
  { apply (float_fin_between 20 b charge_ceiling); auto using float_ltb_leb. }
  rewrite float_leb_fval in Hu by auto. rewrite float_ltb_fval in Hl by auto.
  apply Z.leb_le in Hu. apply Z.ltb_lt in Hl.
  assert (2 ^ 106 * 2 ^ 1021 < 2 ^ 1974) as Hbig by (vm_compute; reflexivity).
  assert (0 < 2 ^ 1021) as HW by (vm_compute; reflexivity).
  rewrite fval_ceiling in Hu. rewrite fval_20 in Hl.
  destruct (float_sub_fval b 0.8 Fb eq_refl) as [Fb' Hr].
  { rewrite fval_0_8. set (W := 2 ^ 1021) in *. lia. }
  rewrite fval_0_8 in Hr.
  assert (0 <= fval (b - 0.8) < fval b) as Hp.
  { set (W := 2 ^ 1021) in *. lia. }
  repeat split; auto; try lia.
  - rewrite float_ltb_fval by auto. apply Z.ltb_ge. rewrite fval_ceiling. lia.
  - rewrite float_leb_fval by auto. apply Z.leb_le.
    change (fval charge_floor) with (- 2 ^ 101 * 2 ^ 1021). lia.
Qed.

(** *** Termination of the loop of [charger] *)
Lemma charger_loop_exit fuel m : charger_guard m = false -> charger_loop fuel m = Some m.
Proof. intros H. destruct fuel; simpl; now rewrite H. Qed.

Lemma iter_shift {A} (f : A -> A) n x : Nat.iter (S n) f x = Nat.iter n f (f x).
Proof. induction n as [|n IH]; [reflexivity|]. simpl in *. now rewrite IH. Qed.

(** By induction on the distance from the charge to 94.9. *)
Lemma charger_terminates_below v :
  0 <= v ->
  forall m, (charge_floor <=? batteryCharge m)%float = true ->
    (charger_guard m = true -> fval 94.9 - fval (batteryCharge m) <= v) ->
    exists n, charger_result m n.
Proof.
  assert (forall m, (charge_floor <=? batteryCharge m)%float = true ->
                    charger_guard m = false -> charger_result m 0) as Stop.
  { intros m Hl Hg. repeat split; cbn [Nat.iter]; auto.
    - intros. now apply charger_loop_exit.
    - intros k Hk. lia.
    - apply float_not_ltb_leb; [now apply (float_leb_not_nan charge_floor)|discriminate|exact Hg]. }
  assert (forall m n, charger_guard m = true -> charger_result (charge m) n ->
                      charger_result m (S n)) as Step.
  { intros m n Hg (H1 & H2 & H3 & H4 & H5). unfold charger_result. rewrite iter_shift.
    repeat split; auto.
    - intros [|fuel] Hf; [lia|]. cbn [charger_loop]. rewrite Hg. apply H1. lia.
    - intros [|k] Hk; [exact Hg|]. rewrite iter_shift. apply H2. lia. }
  intros Hv. pattern v. apply natlike_ind; [| |exact Hv]; clear v Hv.
  - intros m Hl Hm. destruct (charger_guard m) eqn:Hg; [|exists 0%nat; auto].
    destruct (charge_progress _ Hl Hg) as (_ & _ & _ & (_ & Hlt) & _).
    specialize (Hm eq_refl). lia.
  - intros v Hv IH m Hl Hm. destruct (charger_guard m) eqn:Hg; [|exists 0%nat; auto].
    destruct (charge_progress _ Hl Hg) as (_ & Hp & Hl' & _).
    specialize (Hm eq_refl).
    destruct (IH (charge m) Hl') as [n Hn].
    { intros _. cbn [charge batteryCharge]. lia. }
    exists (S n). now apply Step.
Qed.

(** *** Termination of the loops of [acclimate] *)

Lemma drain_final fuel c : parked c = final_suspend -> drain fuel c = Some [].
Proof. intros H. destruct fuel; simpl; now rewrite H. Qed.

Lemma drain_step fuel c c' l :
  parked c <> final_suspend -> resume c = Some c' -> drain fuel c' = Some l ->
  drain (S fuel) c = Some (outputs c' l).
Proof.
  intros Hp Hr Hd. cbn [drain]. rewrite Hr, Hd. unfold outputs.
  destruct (parked c); try congruence; now destruct (yielded c').
Qed.

(** The test [temperature<=20 or temperature>=18] holds for every
    temperature but NaN. *)
Lemma band_total t : not_nan t -> ((t <=? 20) || (18 <=? t))%float = true.
Proof.
  intros Ht. destruct (t <=? 20)%float eqn:E; [reflexivity|]. cbn.
  destruct (18 <=? t)%float eqn:F; [reflexivity|]. exfalso.
  assert ((t <? 18)%float = true) as A.
  { destruct (t <? 18)%float eqn:G; [reflexivity|].
    rewrite (float_not_ltb_leb t 18) in F; [discriminate|assumption|discriminate|assumption]. }
  assert ((t <? 20)%float = true) as B.
  { rewrite FloatAxioms.ltb_spec in *. eapply SFltb_trans; [exact A|reflexivity]. }
  apply float_ltb_leb in B. congruence.
Qed.

Lemma ends_charging_cons m l : ends_charging l -> ends_charging (m :: l).
Proof. intros (l0 & x & -> & H). exists (m :: l0), x. now split. Qed.

Lemma from_band_finishes pr f : finishes (from_band pr f) (temperature f).
Proof.
  unfold from_band. destruct (band_guard f) eqn:G.
  - exists 1%nat, []. split; [reflexivity|]. intros _.
    exists [], (set_state f charging). now split.
  - exists 0%nat, []. split; [reflexivity|]. intros Ht.
    unfold band_guard in G. rewrite band_total in G by assumption. discriminate.
Qed.

(** By induction on the charge: the second loop, then the first. *)
Lemma from_heating_finishes v :
  0 <= v ->
  forall pr f, (charge_ceiling <? batteryCharge f)%float = false ->
    ((20 <? batteryCharge f)%float = true -> fval (batteryCharge f) <= v) ->
    finishes (from_heating pr f) (temperature f).
Proof.
  intros Hv. pattern v. apply natlike_ind; [| |exact Hv]; clear v Hv.
  - intros pr f Hc Hm. unfold from_heating. destruct (heating_guard f) eqn:G;
      [|apply from_band_finishes].
    apply andb_true_iff in G. destruct G as [_ G].
    destruct (drain_progress _ G Hc) as (_ & ? & _). specialize (Hm G). lia.
  - intros v Hv IH pr f Hc Hm. unfold from_heating. destruct (heating_guard f) eqn:G;
      [|apply from_band_finishes].
    apply andb_true_iff in G. destruct G as [_ G].
    destruct (drain_progress _ G Hc) as (_ & Hp & Hc' & _). specialize (Hm G).
    destruct (IH (Some (heat f)) (heat f) Hc') as (fuel & l & Hd & He).
    { intros _. cbn [heat batteryCharge]. lia. }
    exists (S fuel), (outputs (from_heating (Some (heat f)) (heat f)) l). split.
    + apply drain_step; [discriminate|reflexivity|exact Hd].
    + intros Ht. unfold outputs at 1. cbn [yielded co_yield parked promise_info].
      apply ends_charging_cons, He. cbn [heat temperature].
      now apply float_add_not_nan.
Qed.

Lemma from_cooling_finishes v :
  0 <= v ->
  forall pr f, (charge_ceiling <? batteryCharge f)%float = false ->
    ((20 <? batteryCharge f)%float = true -> fval (batteryCharge f) <= v) ->
    finishes (from_cooling pr f) (temperature f).
Proof.
  intros Hv. pattern v. apply natlike_ind; [| |exact Hv]; clear v Hv.
  - intros pr f Hc Hm. unfold from_cooling. destruct (cooling_guard f) eqn:G;
      [|now apply (from_heating_finishes 0)].
    apply andb_true_iff in G. destruct G as [_ G].
    destruct (drain_progress _ G Hc) as (_ & ? & _). specialize (Hm G). lia.
  - intros v Hv IH pr f Hc Hm. unfold from_cooling. destruct (cooling_guard f) eqn:G;
      [|apply (from_heating_finishes (Z.succ v)); auto; lia].
    apply andb_true_iff in G. destruct G as [_ G].
    destruct (drain_progress _ G Hc) as (_ & Hp & Hc' & _). specialize (Hm G).
    destruct (IH (Some (cool f)) (cool f) Hc') as (fuel & l & Hd & He).
    { intros _. cbn [cool batteryCharge]. lia. }
    exists (S fuel), (outputs (from_cooling (Some (cool f)) (cool f)) l). split.
    + apply drain_step; [discriminate|reflexivity|exact Hd].
    + intros Ht. unfold outputs at 1. cbn [yielded co_yield parked promise_info].
      apply ends_charging_cons, He. cbn [cool temperature].
      now apply float_sub_not_nan.
Qed.

End Rounding.

(** * Properties of the processes *)

Lemma float_ltb_neq x y : (x <? y) = true -> x <> y.
Proof.
  intros H E. subst y. rewrite FloatAxioms.ltb_spec in H.
  pose proof (SFltb_asym _ _ H). congruence.
Qed.

Lemma Some_temperature m m' : Some m = Some m' -> temperature m = temperature m'.
Proof. congruence. Qed.

(** A property of every value [rand() % k] can take follows from its
    check on [0 .. k-1]. *)
Lemma forall_below (f : N -> bool) (k : nat) :
  forallb f (map N.of_nat (seq 0 k)) = true ->
  forall n, (n < N.of_nat k)%N -> f n = true.
Proof.
  intros H n Hn. rewrite forallb_forall in H. apply H.
  apply in_map_iff. exists (N.to_nat n). split; [apply N2Nat.id|].
  apply in_seq. lia.
Qed.

(** On each of the 55 temperatures [init_values] can draw, one cooling
    or heating step changes the value. *)
Lemma drawn_temperature_moves (r : N) :
  let t := double_of_N (r mod 55) in
  (t - 0.1 <? t) = true /\ (t <? t + 0.1) = true.
Proof.
  intros t.
  pose (f := fun n => let t := double_of_N n in (t - 0.1 <? t) && (t <? t + 0.1)).
  assert (f (r mod 55)%N = true) as H.
  { apply (forall_below f 55); [vm_compute; reflexivity|].
    apply N.mod_lt. discriminate. }
  apply andb_true_iff in H. exact H.
Qed.

(** ** One step of [acclimate] *)

(** From (25.0, 50.0) the first cooling step yields
    (24.899999999999999, 49.200000000000003): the temperature is lower
    by 0.10000000000000142 and the charge by 0.79999999999999716, which
    is neither what the literals [0.1] and [0.8] denote nor the decimal
    fractions 1/10 and 8/10. *)
Lemma acclimate_25_50_step_is_rounded :
  let i := Message 25 50 start in
  let y := Message 24.899999999999999 49.200000000000003 cooling in
  (20 <? batteryCharge i) = true /\ (20 <? temperature i) = true /\
  acclimate i = co_yield yield_cooling y /\
  yielded (acclimate i) = Some y /\
  (fval 25 - fval (temperature y) = 7205759403792896 * 2 ^ 1018)%Z /\
  fval 0.1 = (7205759403792794 * 2 ^ 1018)%Z /\
  (fval 50 - fval (batteryCharge y) = 7205759403792768 * 2 ^ 1021)%Z /\
  fval 0.8 = (7205759403792794 * 2 ^ 1021)%Z /\
  ~ exactly_lower 0.1 25 (temperature y) /\
  ~ tenths_lower 1 25 (temperature y) /\
  ~ exactly_lower 0.8 50 (batteryCharge y) /\
  ~ tenths_lower 8 50 (batteryCharge y).
Proof.
  repeat (split; [reflexivity|]). unfold exactly_lower, tenths_lower.
  repeat split; apply Z.eqb_neq; vm_compute; reflexivity.
Qed.

(** C4, amended.  With [batteryCharge > 20]: when [temperature > 20],
    the next suspension of [acclimate] (at the call, or on resuming a
    coroutine parked in the first loop) yields the Reading with
    temperature [temperature - 0.1], charge [batteryCharge - 0.8] and
    mode [cooling]; when [temperature < 18], the next suspension (at
    the call, or on resuming from either loop) yields temperature
    [temperature + 0.1], charge [batteryCharge - 0.8], mode [heating].
    [-] and [+] are the program's binary64 operations, which round, and
    [0.1], [0.8] its literals: the differences are not exactly 0.1 and
    0.8. *)
Theorem acclimate_one_step (i : message) :
  (20 <? batteryCharge i) = true ->
  ((20 <? temperature i) = true ->
     let y := {| temperature := temperature i - 0.1;
                 batteryCharge := batteryCharge i - 0.8;
                 state := cooling |} in
     acclimate i = co_yield yield_cooling y /\
     (forall c, frame c = i -> parked c = yield_cooling ->
        resume c = Some (co_yield yield_cooling y)) /\
     yielded (co_yield yield_cooling y) = Some y) /\
  ((temperature i <? 18) = true ->
     let y := {| temperature := temperature i + 0.1;
                 batteryCharge := batteryCharge i - 0.8;
                 state := heating |} in
     acclimate i = co_yield yield_heating y /\
     (forall c, frame c = i -> parked c = yield_cooling \/ parked c = yield_heating ->
        resume c = Some (co_yield yield_heating y)) /\
     yielded (co_yield yield_heating y) = Some y).
Proof.
  intros Hb. split; intros Ht y.
  - assert (forall pr, from_cooling pr i = co_yield yield_cooling y) as F.
    { intros pr. unfold from_cooling, cooling_guard. now rewrite Ht, Hb. }
    unfold acclimate. rewrite Hb, F. repeat split.
    intros c <- Hp. unfold resume. now rewrite Hp, F.
  - assert (forall pr, from_heating pr i = co_yield yield_heating y) as F.
    { intros pr. unfold from_heating, heating_guard. now rewrite Ht, Hb. }
    assert (forall pr, from_cooling pr i = co_yield yield_heating y) as G.
    { intros pr. unfold from_cooling, cooling_guard.
      rewrite (below_18_not_above_20 _ Ht). apply F. }
    unfold acclimate. rewrite Hb, G. repeat split.
    intros c <- [Hp|Hp]; unfold resume; now rewrite Hp, ?F, ?G.
Qed.

Lemma acclimate_one_step_witness :
  acclimate (Message 25 50 start) =
    co_yield yield_cooling (Message (25 - 0.1) (50 - 0.8) cooling) /\
  acclimate (Message 15 50 start) =
    co_yield yield_heating (Message (15 + 0.1) (50 - 0.8) heating).
Proof.
  split.
  - apply (acclimate_one_step (Message 25 50 start)); reflexivity.
  - apply (acclimate_one_step (Message 15 50 start)); reflexivity.
Defined.

(** C9.  With [batteryCharge <= 20], [acclimate] yields one Reading,
    the input with mode [charging]; the next resumption reaches the
    final suspend point without a yield, so the whole sequence is that
    one Reading. *)
Theorem acclimate_low_battery (i : message) :
  (batteryCharge i <=? 20) = true ->
  let c := acclimate i in
  yielded c = Some {| temperature := temperature i;
                      batteryCharge := batteryCharge i;
                      state := charging |} /\
  (exists c', resume c = Some c' /\ parked c' = final_suspend /\ yielded c' = None) /\
  forall fuel, readings (S fuel) i =
    Some [{| temperature := temperature i;
             batteryCharge := batteryCharge i;
             state := charging |}].
Proof.
  intros Hb c.
  assert (c = co_yield yield_low (set_state i charging)) as E.
  { unfold c, acclimate. now rewrite (float_leb_not_ltb _ _ Hb). }
  rewrite E. repeat split.
  - eexists. repeat split.
  - intros fuel. unfold readings. fold c. rewrite E. simpl.
    now rewrite drain_final.
Qed.

Lemma acclimate_low_battery_witness :
  readings 1 (Message 15 10 start) = Some [Message 15 10 charging].
Proof.
  apply (acclimate_low_battery (Message 15 10 start)). reflexivity.
Defined.

(** ** The whole sequence of [acclimate] *)

Lemma drain_stuck fuel c c' :
  parked c <> final_suspend -> resume c = Some c' -> drain fuel c' = None ->
  drain (S fuel) c = None.
Proof.
  intros Hp Hr Hd. cbn [drain]. rewrite Hr, Hd.
  destruct (parked c); try congruence; now destruct (yielded c').
Qed.

(** At temperature and charge [1e17] a cooling step changes neither
    value ([1e17 - 0.1] and [1e17 - 0.8] round back to [1e17]): the
    coroutine is resumed into the state it was in, and no number of
    resumptions drains it. *)
Lemma acclimate_1e17_never_ends :
  resume (acclimate (Message 1e17 1e17 start)) = Some (acclimate (Message 1e17 1e17 start)) /\
  yielded (acclimate (Message 1e17 1e17 start)) = Some (Message 1e17 1e17 cooling) /\
  ~ exists fuel l, readings fuel (Message 1e17 1e17 start) = Some l.
Proof.
  split; [reflexivity|]. split; [reflexivity|].
  intros (fuel & l & H). unfold readings in H.
  assert (drain fuel (acclimate (Message 1e17 1e17 start)) = None) as D.
  { clear H. induction fuel as [|fuel IH]; [reflexivity|].
    eapply drain_stuck; [|reflexivity|exact IH]. discriminate. }
  rewrite D in H. discriminate.
Qed.

(** Beyond the percentage range the same holds for every
    [batteryCharge] that is not above [2^51] (every negative value and
    NaN included): [acclimate] reaches its final suspend point after
    finitely many resumptions, and when the temperature is not a NaN the
    Readings it produced end with one tagged [charging]. *)
Lemma acclimate_finite_below_ceiling (i : message) :
  (charge_ceiling <? batteryCharge i) = false ->
  exists fuel l,
    readings fuel i = Some l /\
    ((temperature i =? temperature i) = true ->
     exists l0 x, l = l0 ++ [x] /\ state x = charging).
Proof.
  intros Hc. unfold readings.
  assert (finishes (acclimate i) (temperature i)) as (fuel & l & Hd & He).
  { unfold acclimate. destruct (20 <? batteryCharge i) eqn:G.
    - apply (from_cooling_finishes (Z.max 0 (fval (batteryCharge i)))); auto; lia.
    - exists 1%nat, []. split; [reflexivity|]. intros _.
      exists [], (set_state i charging). now split. }
  exists fuel, (outputs (acclimate i) l). rewrite Hd. split; [reflexivity|].
  intros Ht. apply He. now apply eqb_refl_not_nan.
Qed.

(** C5.  For every Reading of the data model, that is with a
    [batteryCharge] in the percentage range from 0 to 100, whatever its
    temperature and its mode, [acclimate] produces a finite sequence of
    Readings: it reaches its final suspend point after finitely many
    resumptions.  For every temperature that is a number (anything but
    a NaN) the sequence ends with a Reading tagged [charging]. *)
Theorem acclimate_finite (i : message) :
  (0 <=? batteryCharge i) = true -> (batteryCharge i <=? 100) = true ->
  exists fuel l,
    readings fuel i = Some l /\
    ((temperature i =? temperature i) = true ->
     exists l0 x, l = l0 ++ [x] /\ state x = charging).
Proof.
  intros _ Hu. apply acclimate_finite_below_ceiling.
  destruct (charge_ceiling <? batteryCharge i) eqn:E; [|reflexivity].
  assert ((100 <? batteryCharge i) = true) as F
    by (apply (float_ltb_trans 100 charge_ceiling); [reflexivity|exact E]).
  now rewrite (float_leb_not_ltb _ _ Hu) in F.
Qed.

Lemma acclimate_finite_witness :
  exists fuel l,
    readings fuel (Message 25 50 start) = Some l /\
    ((25 =? 25) = true -> exists l0 x, l = l0 ++ [x] /\ state x = charging).
Proof.
  apply (acclimate_finite (Message 25 50 start)); reflexivity.
Defined.

(** ** [charger] *)

(** At charge [-1e17] adding [0.1] changes nothing ([-1e17 + 0.1]
    rounds back to [-1e17]): the loop test stays true and the loop does
    not return, whatever the number of iterations. *)
Lemma charger_minus_1e17_never_returns :
  (-1e17 + 0.1 =? -1e17) = true /\
  ~ exists fuel r, charger_loop fuel (Message 20 (-1e17) charging) = Some r.
Proof.
  split; [reflexivity|].
  assert (forall fuel t, charger_loop fuel (Message t (-1e17) charging) = None) as D.
  { induction fuel as [|fuel IH]; intros t; [reflexivity|].
    change (charger_loop (S fuel) (Message t (-1e17) charging))
      with (charger_loop fuel (Message (t + 0.01) (-1e17) charging)).
    apply IH. }
  intros (fuel & r & H). rewrite D in H. discriminate.
Qed.




(** From charge 94.8 one iteration is not enough: [94.8 + 0.1] is the
    double 94.899999999999991, below the double 94.9. *)
Lemma charger_94_8_iterates_twice :
  let m := Message 19 94.8 charging in
  charger_guard m = true /\
  charger_guard (charge m) = true /\
  charger_loop 2 m = Some (charge (charge m)) /\
  charger_loop 2 m <> Some (charge m) /\
  temperature (charge (charge m)) <> 19 + 0.01.
Proof.
  repeat split.
  - intros E. apply Some_temperature in E. revert E.
    apply not_eq_sym, float_ltb_neq. reflexivity.
  - apply not_eq_sym, float_ltb_neq. reflexivity.
Qed.

(** C7, amended.  From [batteryCharge = 94.8], whatever the temperature
    and the mode, the loop makes exactly two iterations: the test holds
    at 94.8 and at [94.8 + 0.1], and fails at [94.8 + 0.1 + 0.1], a
    double between 94.99 and 95; the temperature has been increased
    twice by 0.01 and the mode is the input's. *)
Theorem charger_from_94_8 (t : float) (s : State) (fuel : nat) :
  let m := {| temperature := t; batteryCharge := 94.8; state := s |} in
  charger_guard m = true /\
  charger_guard (charge m) = true /\
  charger_guard (charge (charge m)) = false /\
  charger_loop (S (S fuel)) m =
    Some {| temperature := t + 0.01 + 0.01;
            batteryCharge := 94.8 + 0.1 + 0.1;
            state := s |} /\
  (94.8 + 0.1 <? 94.9) = true /\
  (94.99 <? 94.8 + 0.1 + 0.1) = true /\ (94.8 + 0.1 + 0.1 <? 95) = true.
Proof.
  intros m. repeat split.
  change (charger_loop (S (S fuel)) m) with (charger_loop fuel (charge (charge m))).
  now rewrite charger_loop_exit.
Qed.

(** ** The 25.0 / 50.0 scenario *)

(** The sequence for (25.0, 50.0) holds 38 Readings tagged [cooling],
    where the announced formula gives 37. *)
Lemma scenario_25_50_takes_38_steps :
  init_values 25 50 = Message 25 50 cooling /\
  option_map cooling_steps (readings 64 (init_values 25 50)) = Some 38%nat /\
  claimed_cooling_steps = 37%Z.
Proof. repeat split. Qed.

(** C8, amended.  (25.0, 50.0) is classified [cooling]; [acclimate]
    then makes exactly 38 cooling steps, which is
    min(ceil((25-20)/0.1), ceil((50-20)/0.8)): the loop test holds
    before each of them and fails after the 38th because the charge has
    reached 20 or less while the temperature is still above 20; the
    next Reading is the 38th with mode [charging], and it is the last. *)
Theorem scenario_25_50 :
  let m := init_values 25 50 in
  m = Message 25 50 cooling /\
  readings 64 m =
    Some (map (fun k => Nat.iter k cool m) (seq 1 38)
          ++ [set_state (Nat.iter 38 cool m) charging]) /\
  forallb (fun k => cooling_guard (Nat.iter k cool m)) (seq 0 38) = true /\
  (batteryCharge (Nat.iter 38 cool m) <=? 20) = true /\
  (20 <? temperature (Nat.iter 38 cool m)) = true /\
  Z.of_nat 38 = Z.min (Qceiling ((25 - 20) / (1 # 10))) (Qceiling ((50 - 20) / (8 # 10))).
Proof. repeat split. Qed.

(** * Properties of the controller *)

(** ** The [start] case *)

(** With draws 25 and 50 the [start] case leaves [info] at
    (25, 50, cooling) while the coroutine it created has yielded
    (25 - 0.1, 50 - 0.8, cooling): the two Readings differ. *)
Lemma start_step_25_50_keeps_25_50 :
  main_step 0 25 50 (main_init 0 0) =
    Some {| info := Message 25 50 cooling;
            handle := Some (co_yield yield_cooling (Message (25 - 0.1) (50 - 0.8) cooling)) |} /\
  Message 25 50 cooling <> Message (25 - 0.1) (50 - 0.8) cooling.
Proof.
  split; [reflexivity|].
  intros E. apply (f_equal temperature) in E. cbn [temperature] in E.
  revert E. apply not_eq_sym, float_ltb_neq. reflexivity.
Qed.

(** C1, amended.  In the [start] case the controller initialises and
    classifies the Reading and creates a coroutine from [acclimate]
    bound to a copy of it; the coroutine runs to its first suspension,
    but the controller does not copy the promise: after the step [info]
    is the classified Reading of [init_values].  It coincides with the
    first yielded Reading exactly when the classification is
    [charging]. *)
Theorem start_step (fuel : nat) (r1 r2 : N) (c : controller) :
  state (info c) = start ->
  let i := init_values r1 r2 in
  main_step fuel r1 r2 c = Some {| info := i; handle := Some (acclimate i) |} /\
  (promise_info (acclimate i) = Some i <-> state i = charging).
Proof.
  intros Hs i. split.
  - unfold main_step. rewrite Hs. reflexivity.
  - destruct (drawn_temperature_moves r1) as [Hdn Hup].
    unfold i, init_values, acclimate, from_cooling, from_heating, from_band,
      cooling_guard, heating_guard, co_yield, run_off, cool, heat, set_state.
    cbn [temperature batteryCharge state promise_info].
    set (t := double_of_N (r1 mod 55)) in *. set (b := double_of_N (r2 mod 100)).
    destruct (20 <? b) eqn:Eb; rewrite ?andb_true_r, ?andb_false_r.
    + destruct (t <? 18) eqn:Et.
      * rewrite (below_18_not_above_20 _ Et). cbn [promise_info].
        split; [|discriminate]. intros E.
        apply Some_temperature in E. cbn [temperature] in E.
        apply float_ltb_neq in Hup. congruence.
      * destruct (20 <? t) eqn:Et'; cbn [promise_info].
        -- split; [|discriminate]. intros E.
           apply Some_temperature in E. cbn [temperature] in E.
           apply float_ltb_neq in Hdn. congruence.
        -- destruct (band_guard _); cbn [promise_info]; split; discriminate.
    + cbn [promise_info]. split; reflexivity.
Qed.

Lemma start_step_witness :
  main_step 0 25 50 (main_init 0 0) =
    Some {| info := init_values 25 50; handle := Some (acclimate (init_values 25 50)) |}.
Proof.
  apply (start_step 0 25 50 (main_init 0 0)). reflexivity.
Defined.

(** ** From [finish] back to [start] *)

(** With draws (19, 50) and then (25, 60): the first iteration
    classifies [finish], the second sets the mode to [start] and keeps
    19 and 50, the third calls [init_values] again and [info] becomes
    (25, 60, cooling): the cycle does not reuse 19 and 50. *)
Lemma finish_then_start_redraws :
  run 0 draws_19_50_then_25_60 0 1 (main_init 0 0) =
    Running {| info := Message 19 50 finish;
               handle := Some (acclimate (Message 19 50 finish)) |} /\
  run 0 draws_19_50_then_25_60 0 2 (main_init 0 0) =
    Running {| info := Message 19 50 start;
               handle := Some (acclimate (Message 19 50 finish)) |} /\
  run 0 draws_19_50_then_25_60 0 3 (main_init 0 0) =
    Running {| info := Message 25 60 cooling;
               handle := Some (acclimate (Message 25 60 cooling)) |} /\
  (25 : float) <> 19 /\ (60 : float) <> 50.
Proof.
  repeat split; try reflexivity; apply not_eq_sym, float_ltb_neq; reflexivity.
Qed.

(** C2, amended.  The [finish] case changes nothing but the mode, which
    becomes [start]; the iteration that follows is the [start] case,
    whose [init_values] overwrites temperature and charge with the next
    two draws of [rand()], whatever they were at [finish]. *)
Theorem finish_then_start (fuel fuel' : nat) (r1 r2 r1' r2' : N) (c : controller) :
  state (info c) = finish ->
  exists c1,
    main_step fuel r1 r2 c = Some c1 /\
    info c1 = {| temperature := temperature (info c);
                 batteryCharge := batteryCharge (info c);
                 state := start |} /\
    handle c1 = handle c /\
    main_step fuel' r1' r2' c1 =
      Some {| info := init_values r1' r2';
              handle := Some (acclimate (init_values r1' r2')) |} /\
    temperature (init_values r1' r2') = double_of_N (r1' mod 55) /\
    batteryCharge (init_values r1' r2') = double_of_N (r2' mod 100).
Proof.
  intros Hs. eexists. split.
  - unfold main_step. rewrite Hs. reflexivity.
  - repeat split.
Qed.

Lemma finish_then_start_witness :
  exists c1,
    main_step 0 0 0 {| info := Message 19 50 finish; handle := None |} = Some c1 /\
    info c1 = Message 19 50 start /\
    handle c1 = None /\
    main_step 0 25 60 c1 =
      Some {| info := init_values 25 60; handle := Some (acclimate (init_values 25 60)) |} /\
    temperature (init_values 25 60) = double_of_N (25 mod 55) /\
    batteryCharge (init_values 25 60) = double_of_N (60 mod 100).
Proof.
  apply (finish_then_start 0 0 0 0 25 60 {| info := Message 19 50 finish; handle := None |}).
  reflexivity.
Defined.

(** ** The [charging] case *)

(** C3.  In the [charging] case, when the Reading [r] returned by
    [charger] has temperature above 20, the controller creates a new
    coroutine from [acclimate r] and sets the mode to [cooling]; [info]
    keeps the temperature and the charge of [r].  The Reading the new
    coroutine has yielded meanwhile ([cool r], as the charge of [r] is
    above 20) stays in its promise. *)
Theorem charging_to_cooling (fuel : nat) (r1 r2 : N) (c : controller) (r : message) :
  state (info c) = charging ->
  charger_loop fuel (info c) = Some r ->
  (20 <? temperature r) = true ->
  main_step fuel r1 r2 c =
    Some {| info := {| temperature := temperature r;
                       batteryCharge := batteryCharge r;
                       state := cooling |};
            handle := Some (acclimate r) |} /\
  ((20 <? batteryCharge r) = true -> promise_info (acclimate r) = Some (cool r)).
Proof.
  intros Hs Hr Ht. split.
  - unfold main_step, charger, adopt. rewrite Hs, Hr. cbn [promise_info].
    now rewrite (above_20_not_below_18 _ Ht), Ht.
  - intros Hb. unfold acclimate, from_cooling, cooling_guard. now rewrite Hb, Ht.
Qed.

Lemma charging_to_cooling_witness :
  let c := {| info := Message 25 94.85 charging; handle := None |} in
  let r := charge (info c) in
  main_step 10 0 0 c =
    Some {| info := {| temperature := temperature r;
                       batteryCharge := batteryCharge r;
                       state := cooling |};
            handle := Some (acclimate r) |} /\
  ((20 <? batteryCharge r) = true -> promise_info (acclimate r) = Some (cool r)).
Proof.
  intros c r. apply (charging_to_cooling 10 0 0 c r); reflexivity.
Defined.

(** ** The dispatch loop never sees [standby] *)

Lemma from_band_live pr i :
  (forall m, pr = Some m -> live (state m)) ->
  forall m, promise_info (from_band pr i) = Some m -> live (state m).
Proof.
  intros H m. unfold from_band. destruct (band_guard i); cbn.
  - intros [= <-]. discriminate.
  - apply H.
Qed.

Lemma from_heating_live pr i :
  (forall m, pr = Some m -> live (state m)) ->
  forall m, promise_info (from_heating pr i) = Some m -> live (state m).
Proof.
  intros H m. unfold from_heating. destruct (heating_guard i); cbn.
  - intros [= <-]. discriminate.
  - now apply from_band_live.
Qed.

Lemma from_cooling_live pr i :
  (forall m, pr = Some m -> live (state m)) ->
  forall m, promise_info (from_cooling pr i) = Some m -> live (state m).
Proof.
  intros H m. unfold from_cooling. destruct (cooling_guard i); cbn.
  - intros [= <-]. discriminate.
  - now apply from_heating_live.
Qed.

Lemma acclimate_live i m : promise_info (acclimate i) = Some m -> live (state m).
Proof.
  unfold acclimate. destruct (20 <? batteryCharge i).
  - apply from_cooling_live. discriminate.
  - cbn. intros [= <-]. discriminate.
Qed.

Lemma resume_live h h' :
  (forall m, promise_info h = Some m -> live (state m)) ->
  resume h = Some h' ->
  forall m, promise_info h' = Some m -> live (state m).
Proof.
  intros H. unfold resume. destruct (parked h); intros [= <-].
  - now apply from_cooling_live.
  - now apply from_heating_live.
  - exact H.
  - exact H.
Qed.

Lemma charger_loop_state fuel : forall m r, charger_loop fuel m = Some r -> state r = state m.
Proof.
  induction fuel as [|fuel IH]; intros m r; simpl; destruct (charger_guard m);
    try discriminate; try (now intros [= <-]).
  intros H. now rewrite (IH _ _ H).
Qed.

Lemma resume_adopt_inv c h h' i :
  inv c -> handle c = Some h -> resume h = Some h' -> adopt h' = Some i ->
  inv {| info := i; handle := Some h' |}.
Proof.
  intros [_ Hp] Eh Er Ei.
  assert (forall m, promise_info h' = Some m -> live (state m)) as L.
  { eapply resume_live; [|exact Er]. intros m. now apply Hp. }
  split; cbn; [now apply L|]. intros ? m [= <-]. apply L.
Qed.

Lemma main_step_inv fuel r1 r2 c c' :
  inv c -> main_step fuel r1 r2 c = Some c' -> inv c'.
Proof.
  intros I. pose proof I as [Hl Hp]. unfold main_step.
  destruct (state (info c)) eqn:Es.
  - intros [= <-]. split; cbn.
    + unfold init_values; cbn. unfold live.
      repeat match goal with |- context [if ?b then _ else _] => destruct b end; discriminate.
    + intros h m [= <-]. apply acclimate_live.
  - destruct (handle c) as [h|] eqn:Eh; [|discriminate].
    destruct (resume h) as [h'|] eqn:Er; [|discriminate].
    destruct (adopt h') as [i|] eqn:Ei; [|discriminate].
    intros [= <-]. eapply resume_adopt_inv; eauto.
  - destruct (handle c) as [h|] eqn:Eh; [|discriminate].
    destruct (resume h) as [h'|] eqn:Er; [|discriminate].
    destruct (adopt h') as [i|] eqn:Ei; [|discriminate].
    intros [= <-]. eapply resume_adopt_inv; eauto.
  - unfold charger. destruct (charger_loop fuel (info c)) as [r|]; [|discriminate].
    unfold adopt; cbn [promise_info].
    destruct (temperature r <? 18).
    + destruct (promise_info (acclimate r)) eqn:Ea; [|discriminate].
      intros [= <-]. split; cbn; [discriminate|]. intros ? ? [= <-]. apply acclimate_live.
    + destruct (20 <? temperature r); intros [= <-]; (split; cbn; [discriminate|]).
      * intros ? ? [= <-]. apply acclimate_live.
      * exact Hp.
  - intros [= <-]. split; cbn; [discriminate|exact Hp].
  - intros [= <-]. exact I.
Qed.

Lemma reachable_inv c : reachable c -> inv c.
Proof.
  induction 1 as [t0 b0|fuel r1 r2 c c' _ IH _ Hs].
  - split; cbn; [discriminate|]. intros ? ? [=].
  - eapply main_step_inv; eauto.
Qed.

Lemma live_guard c : live (state (info c)) -> loop_guard c = true.
Proof. unfold loop_guard, live. destruct (state (info c)); cbn; congruence. Qed.

(** ** The dispatch loop always has a next iteration *)

Lemma good_set_state m s : good_reading m -> good_reading (set_state m s).
Proof. now destruct m. Qed.

Lemma good_cool f : good_reading f -> (20 <? batteryCharge f) = true -> good_reading (cool f).
Proof.
  intros (Hl & Hc & Ht) G. destruct (drain_progress _ G Hc) as (_ & _ & Hc' & Hl').
  repeat split; cbn [cool batteryCharge temperature]; auto.
  now apply float_sub_not_nan.
Qed.

Lemma good_heat f : good_reading f -> (20 <? batteryCharge f) = true -> good_reading (heat f).
Proof.
  intros (Hl & Hc & Ht) G. destruct (drain_progress _ G Hc) as (_ & _ & Hc' & Hl').
  repeat split; cbn [heat batteryCharge temperature]; auto.
  now apply float_add_not_nan.
Qed.

Lemma good_charge m : good_reading m -> charger_guard m = true -> good_reading (charge m).
Proof.
  intros (Hl & Hc & Ht) G. destruct (charge_progress _ Hl G) as (_ & _ & Hl' & _ & Hc').
  repeat split; cbn [charge batteryCharge temperature]; auto.
  now apply float_add_not_nan.
Qed.

Lemma good_charger fuel : forall m r,
  charger_loop fuel m = Some r -> good_reading m -> good_reading r /\ charger_guard r = false.
Proof.
  induction fuel as [|fuel IH]; intros m r; cbn [charger_loop];
    destruct (charger_guard m) eqn:G; try discriminate.
  - intros [= <-]. auto.
  - intros H Hm. apply (IH _ _ H). now apply good_charge.
  - intros [= <-]. auto.
Qed.

Lemma good_init r1 r2 : good_reading (init_values r1 r2).
Proof.
  unfold good_reading, init_values. cbn [batteryCharge temperature].
  pose (f := fun n => (charge_floor <=? double_of_N n) && negb (charge_ceiling <? double_of_N n)).
  pose (g := fun n => (double_of_N n =? double_of_N n)).
  assert (f (r2 mod 100)%N = true) as Hf.
  { apply (forall_below f 100); [vm_compute; reflexivity|]. apply N.mod_lt. discriminate. }
  assert (g (r1 mod 55)%N = true) as Hg.
  { apply (forall_below g 55); [vm_compute; reflexivity|]. apply N.mod_lt. discriminate. }
  apply andb_true_iff in Hf. destruct Hf as [H1 H2]. apply negb_true_iff in H2.
  repeat split; auto. now apply eqb_refl_not_nan.
Qed.

Lemma SFltb_leb_trans a b c : SFltb a b = true -> SFleb b c = true -> SFltb a c = true.
Proof. unfold SFltb, SFleb, SFcompare. destruct a, b, c; sf_cases. Qed.

Lemma float_ltb_leb_trans x y z : (x <? y) = true -> (y <=? z) = true -> (x <? z) = true.
Proof. rewrite !FloatAxioms.ltb_spec, FloatAxioms.leb_spec. apply SFltb_leb_trans. Qed.

Lemma charged_above_20 r :
  good_reading r -> charger_guard r = false -> (20 <? batteryCharge r) = true.
Proof.
  intros (Hl & _ & _) G. unfold charger_guard in G.
  apply float_not_ltb_leb in G; [| now apply (float_leb_not_nan charge_floor) | discriminate].
  now apply (float_ltb_leb_trans 20 94.9).
Qed.

Lemma from_band_next pr f : good_reading f -> next_ok (from_band pr f).
Proof.
  intros Hf. unfold from_band, band_guard.
  rewrite band_total by apply Hf.
  exists (set_state f charging). repeat split; try apply good_set_state, Hf; auto.
Qed.

Lemma from_heating_next pr f : good_reading f -> next_ok (from_heating pr f).
Proof.
  intros Hf. unfold from_heating. destruct (heating_guard f) eqn:G.
  - apply andb_true_iff in G. destruct G as [_ G].
    exists (heat f). repeat split; try (now apply good_heat); auto.
  - now apply from_band_next.
Qed.

Lemma from_cooling_next pr f : good_reading f -> next_ok (from_cooling pr f).
Proof.
  intros Hf. unfold from_cooling. destruct (cooling_guard f) eqn:G.
  - apply andb_true_iff in G. destruct G as [_ G].
    exists (cool f). repeat split; try (now apply good_cool); auto.
  - now apply from_heating_next.
Qed.

Lemma resume_next h : in_loop h -> exists h', resume h = Some h' /\ next_ok h'.
Proof.
  intros ([Hp|Hp] & _ & Hf); unfold resume; rewrite Hp; eexists; split; try reflexivity.
  - now apply from_cooling_next.
  - now apply from_heating_next.
Qed.

Lemma next_ok_sound h' y :
  next_ok h' -> promise_info h' = Some y -> sound {| info := y; handle := Some h' |}.
Proof.
  intros (y' & Hy & Hfr & Hg & Hs) E. rewrite Hy in E. injection E as <-.
  unfold sound. cbn [info handle]. split; [|split].
  - destruct Hs as [[E _]|[[E _]|[E _]]]; rewrite E; discriminate.
  - intros _. exact Hg.
  - intros Hst. exists h'. split; [reflexivity|].
    unfold in_loop. rewrite Hfr, Hy. split; [|split]; auto.
    destruct Hs as [[_ P]|[[_ P]|[E _]]]; auto.
    destruct Hst; congruence.
Qed.

Lemma acclimate_in_loop i :
  good_reading i -> (20 <? batteryCharge i) = true ->
  ((20 <? temperature i) = true /\ acclimate i = co_yield yield_cooling (cool i) \/
   (temperature i <? 18) = true /\ acclimate i = co_yield yield_heating (heat i)) ->
  in_loop (acclimate i).
Proof.
  intros Hi Hb [[_ ->]|[_ ->]]; unfold in_loop; cbn [co_yield parked promise_info frame].
  - repeat split; auto; now apply good_cool.
  - repeat split; auto; now apply good_heat.
Qed.

Lemma acclimate_cooling i :
  (20 <? batteryCharge i) = true -> (20 <? temperature i) = true ->
  acclimate i = co_yield yield_cooling (cool i).
Proof.
  intros Hb Ht. unfold acclimate, from_cooling, cooling_guard. now rewrite Hb, Ht.
Qed.

Lemma acclimate_heating i :
  (20 <? batteryCharge i) = true -> (temperature i <? 18) = true ->
  acclimate i = co_yield yield_heating (heat i).
Proof.
  intros Hb Ht. unfold acclimate, from_cooling, from_heating, cooling_guard, heating_guard.
  now rewrite Hb, Ht, (below_18_not_above_20 _ Ht).
Qed.

Lemma init_values_class r1 r2 :
  let i := init_values r1 r2 in
  state i <> start /\ state i <> standby /\
  (state i = cooling -> (20 <? batteryCharge i) = true /\ (20 <? temperature i) = true) /\
  (state i = heating -> (20 <? batteryCharge i) = true /\ (temperature i <? 18) = true).
Proof.
  unfold init_values. cbn [state temperature batteryCharge].
  destruct (double_of_N (r1 mod 55) <? 18), (20 <? double_of_N (r2 mod 100)),
    (20 <? double_of_N (r1 mod 55)); cbn; repeat split; auto; discriminate.
Qed.

Lemma main_step_sound fuel r1 r2 c c' :
  sound c -> main_step fuel r1 r2 c = Some c' -> sound c'.
Proof.
  intros (Hsb & Hg & Hh). unfold main_step. destruct (state (info c)) eqn:Es.
  - intros [= <-]. pose proof (good_init r1 r2) as Gi.
    destruct (init_values_class r1 r2) as (_ & Nsb & Hc & Hhe).
    split; [exact Nsb|]. split; [auto|]. cbn [info handle].
    intros [E|E]; eexists; (split; [reflexivity|]).
    + destruct (Hc E) as [Hb Ht]. apply acclimate_in_loop; auto using acclimate_cooling.
    + destruct (Hhe E) as [Hb Ht]. apply acclimate_in_loop; auto using acclimate_heating.
  - destruct (Hh (or_introl eq_refl)) as (h & -> & Hl).
    destruct (resume_next h Hl) as (h' & -> & Hn).
    unfold adopt. destruct (promise_info h') as [y|] eqn:Ey; [|discriminate].
    intros [= <-]. now apply next_ok_sound.
  - destruct (Hh (or_intror eq_refl)) as (h & -> & Hl).
    destruct (resume_next h Hl) as (h' & -> & Hn).
    unfold adopt. destruct (promise_info h') as [y|] eqn:Ey; [|discriminate].
    intros [= <-]. now apply next_ok_sound.
  - unfold charger. destruct (charger_loop fuel (info c)) as [r|] eqn:Er; [|discriminate].
    destruct (good_charger _ _ _ Er (Hg ltac:(discriminate))) as [Gr Hx].
    pose proof (charged_above_20 r Gr Hx) as Hb.
    unfold adopt. cbn [promise_info].
    destruct (temperature r <? 18) eqn:Et.
    + rewrite (acclimate_heating r Hb Et). cbn [promise_info co_yield].
      intros [= <-]. split; [discriminate|]. split.
      * intros _. apply good_set_state. now apply good_heat.
      * intros _. eexists. split; [reflexivity|].
        unfold in_loop. cbn. repeat split; auto; now apply good_heat.
    + destruct (20 <? temperature r) eqn:Et'; intros [= <-]; (split; [discriminate|]); split.
      * intros _. now apply good_set_state.
      * intros _. eexists. split; [reflexivity|].
        apply acclimate_in_loop; auto using acclimate_cooling.
      * intros _. now apply good_set_state.
      * cbn. intros [?|?]; discriminate.
  - intros [= <-]. split; [discriminate|]. split; cbn; [congruence|intros [?|?]; discriminate].
  - congruence.
Qed.

Lemma reachable_sound c : reachable c -> sound c.
Proof.
  induction 1 as [t0 b0|fuel r1 r2 c c' _ IH _ Hs].
  - split; [discriminate|]. split; cbn; [congruence|intros [?|?]; discriminate].
  - eapply main_step_sound; eauto.
Qed.

Lemma reachable_step_defined (c : controller) (r1 r2 : N) :
  reachable c -> exists fuel c', main_step fuel r1 r2 c = Some c' /\ reachable c'.
Proof.
  intros R. pose proof (reachable_sound c R) as (Hsb & Hg & Hh).
  assert (loop_guard c = true) as G.
  { unfold loop_guard. destruct (state (info c)); cbn; congruence. }
  assert (exists fuel c', main_step fuel r1 r2 c = Some c') as (fuel & c' & E).
  { unfold main_step. destruct (state (info c)) eqn:Es.
    - exists 0%nat. eexists. reflexivity.
    - destruct (Hh (or_introl eq_refl)) as (h & -> & Hl).
      destruct (resume_next h Hl) as (h' & -> & (y & Hy & _)).
      exists 0%nat. unfold adopt. rewrite Hy. eexists. reflexivity.
    - destruct (Hh (or_intror eq_refl)) as (h & -> & Hl).
      destruct (resume_next h Hl) as (h' & -> & (y & Hy & _)).
      exists 0%nat. unfold adopt. rewrite Hy. eexists. reflexivity.
    - destruct (Hg ltac:(discriminate)) as (Hl & Hc & Ht).
      destruct (charger_terminates_below (Z.max 0 (fval 94.9 - fval (batteryCharge (info c))))
                  ltac:(lia) (info c) Hl ltac:(lia)) as (n & Hn & _).
      pose proof (Hn n (le_n n)) as Er.
      destruct (good_charger _ _ _ Er (Hg ltac:(discriminate))) as [Gr Hx].
      pose proof (charged_above_20 _ Gr Hx) as Hb.
      exists n. unfold charger. rewrite Er. unfold adopt. cbn [promise_info].
      set (r := Nat.iter n charge (info c)) in *.
      destruct (temperature r <? 18) eqn:Et.
      + rewrite (acclimate_heating r Hb Et). eexists. reflexivity.
      + destruct (20 <? temperature r); eexists; reflexivity.
    - exists 0%nat. eexists. reflexivity.
    - congruence. }
  exists fuel, c'. split; [exact E|]. eapply reach_step; eauto.
Qed.

(** C10.  In every state the dispatch loop can reach, whatever [rand()]
    returns, the mode is not [standby]: the loop test [info.state != 5]
    holds, no number of iterations ends with the loop exited, and the
    next iteration is defined (no exhausted or missing coroutine is
    resumed, and the loop of [charger] returns) and leads to a reachable
    state again. *)
Theorem mode_never_standby (c : controller) :
  reachable c ->
  state (info c) <> standby /\
  loop_guard c = true /\
  (forall fuel rnd k steps c', run fuel rnd k steps c <> Exited c') /\
  (forall r1 r2, exists fuel c', main_step fuel r1 r2 c = Some c' /\ reachable c').
Proof.
  intros R. pose proof (reachable_inv _ R) as [L _]. split; [exact L|].
  split; [now apply live_guard|]. split; [|intros; now apply reachable_step_defined].
  intros fuel rnd k steps. revert k c R L.
  induction steps as [|steps IH]; intros k c R L c'; simpl; [discriminate|].
  rewrite (live_guard _ L).
  destruct (main_step fuel (fst (rnd k)) (snd (rnd k)) c) as [c1|] eqn:E; [|discriminate].
  assert (reachable c1) as R1 by (eapply reach_step; eauto using live_guard).
  apply IH; [exact R1|]. now apply reachable_inv.
Qed.

Lemma mode_never_standby_witness :
  let c := {| info := Message 25 50 cooling;
              handle := Some (acclimate (Message 25 50 cooling)) |} in
  state (info c) <> standby /\
  loop_guard c = true /\
  (forall fuel rnd k steps c', run fuel rnd k steps c <> Exited c') /\
  (forall r1 r2, exists fuel c', main_step fuel r1 r2 c = Some c' /\ reachable c').
Proof.
  intros c. apply (mode_never_standby c).
  apply (reach_step 0 25 50 (main_init 0 0)); [apply reach_init|reflexivity|reflexivity].
Defined.

(** * Further properties of the processes and of the controller *)

(** ** [init_values] *)

Lemma drawn_ok_all : forall n, (n < 100)%N -> drawn_ok n = true.
Proof. apply (forall_below drawn_ok 100). vm_compute. reflexivity. Qed.

Lemma fval_of_drawn n : (n < 100)%N -> fval (double_of_N n) = (Z.of_N n * 2 ^ 1074)%Z.
Proof.
  intros H. pose proof (drawn_ok_all n H) as D. unfold drawn_ok in D.
  rewrite !andb_true_iff in D. destruct D as [[[[[[[D _] _] _] _] _] _] _]. now apply Z.eqb_eq.
Qed.

(** X1.  [init_values]: the two Readings it draws are the integers
    [rand() % 55] and [rand() % 100], converted to [double] without
    rounding, so the temperature lies in [0, 54] and the charge in
    [0, 99]; and the mode it sets is [heating] exactly when the charge is
    above 20 and the temperature below 18, [cooling] exactly when both
    are above 20, [finish] exactly when the charge is above 20 and the
    temperature in the band from 18 to 20, [charging] exactly when the
    charge is 20 or less; never [start] nor [standby]. *)
Theorem init_values_classifies (r1 r2 : N) :
  let i := init_values r1 r2 in
  let t := temperature i in
  let b := batteryCharge i in
  fval t = (Z.of_N (r1 mod 55) * 2 ^ 1074)%Z /\
  fval b = (Z.of_N (r2 mod 100) * 2 ^ 1074)%Z /\
  (0 <=? t) = true /\ (t <=? 54) = true /\ (0 <=? b) = true /\ (b <=? 99) = true /\
  (state i = heating <-> (20 <? b) = true /\ (t <? 18) = true) /\
  (state i = cooling <-> (20 <? b) = true /\ (20 <? t) = true) /\
  (state i = finish <-> (20 <? b) = true /\ (18 <=? t) = true /\ (t <=? 20) = true) /\
  (state i = charging <-> (b <=? 20) = true) /\
  state i <> start /\ state i <> standby.
Proof.
  intros i t b.
  assert (r1 mod 55 < 100)%N as H1.
  { pose proof (N.mod_lt r1 55 ltac:(discriminate)). lia. }
  assert (r2 mod 100 < 100)%N as H2 by (apply N.mod_lt; discriminate).
  split; [now apply fval_of_drawn|]. split; [now apply fval_of_drawn|].
  pose proof (drawn_ok_all _ H1) as D1. pose proof (drawn_ok_all _ H2) as D2.
  unfold drawn_ok in D1, D2. rewrite !andb_true_iff in D1, D2.
  destruct D1 as [[[[[[[_ _] E20] E18] Ex] T0] _] T54],
           D2 as [[[[[[[_ _] B20] _] _] B0] B99] _].
  apply eqb_prop in E20, E18, B20. apply negb_true_iff in Ex.
  assert ((double_of_N (r1 mod 55) <=? 54) = true) as T54'.
  { apply orb_true_iff in T54. destruct T54 as [T|T]; [exact T|].
    apply Nat.ltb_lt in T. pose proof (N.mod_lt r1 55 ltac:(discriminate)). lia. }
  repeat (split; [assumption|]).
  subst t b i. unfold init_values. cbn [temperature batteryCharge state].
  set (t := double_of_N (r1 mod 55)) in *. set (b := double_of_N (r2 mod 100)) in *.
  rewrite E20, E18, B20.
  destruct (t <? 18), (20 <? t), (20 <? b); cbn in *; try discriminate;
    repeat split; try discriminate; try tauto; intros; repeat match goal with
    | H : _ /\ _ |- _ => destruct H end; try discriminate; auto.
Qed.

Lemma init_values_finish r1 r2 :
  state (init_values r1 r2) = finish ->
  (18 <=? temperature (init_values r1 r2)) = true /\
  (temperature (init_values r1 r2) <=? 20) = true /\
  (20 <? batteryCharge (init_values r1 r2)) = true.
Proof.
  assert (r1 mod 55 < 100)%N as H1.
  { pose proof (N.mod_lt r1 55 ltac:(discriminate)). lia. }
  pose proof (drawn_ok_all _ H1) as D1. unfold drawn_ok in D1.
  rewrite !andb_true_iff in D1. destruct D1 as [[[[[[[_ _] E20] E18] _] _] _] _].
  apply eqb_prop in E20, E18.
  unfold init_values. cbn [temperature batteryCharge state].
  set (t := double_of_N (r1 mod 55)) in *. set (b := double_of_N (r2 mod 100)).
  rewrite E20, E18.
  destruct (t <? 18), (20 <? t), (20 <? b); cbn; intros; try discriminate; auto.
Qed.

(** ** The cases of [main] *)

(** X2.  The [cooling] and [heating] cases of [main], in every state the
    loop can reach: [handle] refers to a coroutine, [handle()] resumes it
    up to its next [co_yield], and [info = promise->info] adopts the
    Reading just yielded, which is the coroutine's own Reading one
    cooling step or one heating step further, or that Reading retagged
    [charging]. *)
Theorem resume_step_adopts (fuel : nat) (r1 r2 : N) (c : controller) :
  reachable c ->
  state (info c) = cooling \/ state (info c) = heating ->
  exists h h',
    handle c = Some h /\ resume h = Some h' /\
    main_step fuel r1 r2 c = Some {| info := frame h'; handle := Some h' |} /\
    promise_info h' = Some (frame h') /\
    (frame h' = cool (frame h) \/ frame h' = heat (frame h) \/
     frame h' = set_state (frame h) charging).
Proof.
  intros R Hs. destruct (reachable_sound c R) as (_ & _ & Hh).
  destruct (Hh Hs) as (h & Eh & Hl). destruct (resume_next h Hl) as (h' & Er & (y & Hy & Hf & _)).
  exists h, h'. repeat split; auto.
  - unfold main_step. destruct Hs as [-> | ->]; rewrite Eh, Er; unfold adopt; now rewrite Hy, Hf.
  - now rewrite Hy, Hf.
  - destruct Hl as (Hp & _ & (_ & _ & Ht)).
    assert (band_guard (frame h) = true) as B by (apply band_total, Ht).
    revert Er. unfold resume, from_cooling, from_heating, from_band. rewrite B.
    destruct Hp as [-> | ->];
      repeat match goal with |- context [if ?b then _ else _] => destruct b end;
      intros [= <-]; cbn; auto.
Qed.

Lemma resume_step_adopts_witness :
  let c := {| info := Message 25 50 cooling;
              handle := Some (acclimate (Message 25 50 cooling)) |} in
  exists h h',
    handle c = Some h /\ resume h = Some h' /\
    main_step 0 0 0 c = Some {| info := frame h'; handle := Some h' |} /\
    promise_info h' = Some (frame h') /\
    (frame h' = cool (frame h) \/ frame h' = heat (frame h) \/
     frame h' = set_state (frame h) charging).
Proof.
  intros c. apply (resume_step_adopts 0 0 0 c).
  - apply (reach_step 0 25 50 (main_init 0 0)); [apply reach_init|reflexivity|reflexivity].
  - left. reflexivity.
Defined.

Lemma charger_loop_guard fuel : forall m r,
  charger_loop fuel m = Some r -> charger_guard r = false.
Proof.
  induction fuel as [|fuel IH]; intros m r; cbn [charger_loop];
    destruct (charger_guard m) eqn:G; try discriminate.
  - now intros [= <-].
  - apply IH.
  - now intros [= <-].
Qed.

Lemma charger_loop_not_nan fuel : forall m r,
  charger_loop fuel m = Some r -> not_nan (batteryCharge m) -> not_nan (batteryCharge r).
Proof.
  induction fuel as [|fuel IH]; intros m r; cbn [charger_loop];
    destruct (charger_guard m) eqn:G; try discriminate.
  - now intros [= <-].
  - intros H Hm. apply (IH _ _ H). cbn [charge batteryCharge]. now apply float_add_not_nan.
  - now intros [= <-].
Qed.

Lemma charged_is_above_20 fuel m r :
  charger_loop fuel m = Some r -> (batteryCharge m =? batteryCharge m) = true ->
  (94.9 <=? batteryCharge r) = true /\ (20 <? batteryCharge r) = true.
Proof.
  intros H Hm. apply eqb_refl_not_nan in Hm.
  pose proof (charger_loop_not_nan _ _ _ H Hm) as Hr.
  pose proof (charger_loop_guard _ _ _ H) as G. unfold charger_guard in G.
  apply float_not_ltb_leb in G; [|assumption|discriminate].
  split; [exact G|]. now apply (float_ltb_leb_trans 20 94.9).
Qed.

(** X3.  The [charging] case of [main] when [charger] returns a Reading
    [r] colder than 18 (the charge it started from not being a NaN): the
    new [acclimate(info)] coroutine performs its first heating step at
    once, since the charge is 94.9 or more, and [main] adopts that
    Reading: after the step, [info] is [r] warmed by 0.1 and drained by
    0.8, tagged [heating], and [handle] is parked at the [co_yield] of
    the heating loop on that same Reading. *)
Theorem charging_to_heating (fuel : nat) (r1 r2 : N) (c : controller) (r : message) :
  state (info c) = charging ->
  (batteryCharge (info c) =? batteryCharge (info c)) = true ->
  charger_loop fuel (info c) = Some r ->
  (temperature r <? 18) = true ->
  let y := {| temperature := temperature r + 0.1;
              batteryCharge := batteryCharge r - 0.8;
              state := heating |} in
  main_step fuel r1 r2 c = Some {| info := y; handle := Some (co_yield yield_heating y) |} /\
  acclimate r = co_yield yield_heating y.
Proof.
  intros Hs Hn Hr Ht y.
  destruct (charged_is_above_20 _ _ _ Hr Hn) as [_ Hb].
  pose proof (acclimate_heating r Hb Ht) as Ea. split; [|exact Ea].
  unfold main_step, charger, adopt. rewrite Hs, Hr. cbn [promise_info].
  rewrite Ht, Ea. reflexivity.
Qed.

Lemma charging_to_heating_witness :
  let c := {| info := Message 15 94.85 charging; handle := None |} in
  let r := charge (info c) in
  let y := {| temperature := temperature r + 0.1;
              batteryCharge := batteryCharge r - 0.8;
              state := heating |} in
  main_step 10 0 0 c = Some {| info := y; handle := Some (co_yield yield_heating y) |} /\
  acclimate r = co_yield yield_heating y.
Proof.
  intros c r. apply (charging_to_heating 10 0 0 c r); reflexivity.
Defined.

(** X4.  The [charging] case of [main] when [charger] returns a Reading
    [r] whose temperature is in the band from 18 to 20: [info] becomes
    [r] tagged [finish]; no coroutine is created and [handle] keeps
    referring to the coroutine of the sequence. *)
Theorem charging_to_finish (fuel : nat) (r1 r2 : N) (c : controller) (r : message) :
  state (info c) = charging ->
  charger_loop fuel (info c) = Some r ->
  (18 <=? temperature r) = true -> (temperature r <=? 20) = true ->
  main_step fuel r1 r2 c =
    Some {| info := {| temperature := temperature r;
                       batteryCharge := batteryCharge r;
                       state := finish |};
            handle := handle c |}.
Proof.
  intros Hs Hr H18 H20.
  unfold main_step, charger, adopt. rewrite Hs, Hr. cbn [promise_info].
  now rewrite (float_leb_not_ltb _ _ H18), (float_leb_not_ltb _ _ H20).
Qed.

Lemma charging_to_finish_witness :
  main_step 10 0 0 {| info := Message 19 94.85 charging; handle := None |} =
    Some {| info := Message (19 + 0.01) (94.85 + 0.1) finish; handle := None |}.
Proof.
  apply (charging_to_finish 10 0 0 {| info := Message 19 94.85 charging; handle := None |}
           (charge (Message 19 94.85 charging))); reflexivity.
Defined.

(** X5.  Whenever the dispatch loop is in mode [finish], the
    temperature lies in the band from 18 to 20 and the charge is above
    20: a sequence is only ever reported finished on a regulated
    Reading. *)
Theorem finish_means_regulated (c : controller) :
  reachable c -> state (info c) = finish ->
  (18 <=? temperature (info c)) = true /\ (temperature (info c) <=? 20) = true /\
  (20 <? batteryCharge (info c)) = true.
Proof.
  intros R. destruct R as [t0 b0|fuel r1 r2 c c' R G E]; [discriminate|].
  pose proof (reachable_sound c R) as (_ & Hg & Hh). revert E. unfold main_step.
  destruct (state (info c)) eqn:Es.
  - intros [= <-]. cbn [info]. apply init_values_finish.
  - destruct (Hh (or_introl eq_refl)) as (h & -> & Hl).
    destruct (resume_next h Hl) as (h' & -> & (y & Hy & _ & _ & Hst)).
    unfold adopt. rewrite Hy. intros [= <-]. cbn. intros E.
    destruct Hst as [[E' _]|[[E' _]|[E' _]]]; congruence.
  - destruct (Hh (or_intror eq_refl)) as (h & -> & Hl).
    destruct (resume_next h Hl) as (h' & -> & (y & Hy & _ & _ & Hst)).
    unfold adopt. rewrite Hy. intros [= <-]. cbn. intros E.
    destruct Hst as [[E' _]|[[E' _]|[E' _]]]; congruence.
  - unfold charger. destruct (charger_loop fuel (info c)) as [r|] eqn:Er; [|discriminate].
    destruct (good_charger _ _ _ Er (Hg ltac:(discriminate))) as [Gr Hx].
    pose proof (charged_above_20 r Gr Hx) as Hb.
    unfold adopt. cbn [promise_info].
    destruct (temperature r <? 18) eqn:Et.
    + destruct (promise_info (acclimate r)); [|discriminate]. intros [= <-]. discriminate.
    + destruct (20 <? temperature r) eqn:Et'; intros [= <-]; [discriminate|].
      intros _. cbn. destruct Gr as (_ & _ & Hn).
      repeat split; auto; apply float_not_ltb_leb; auto; discriminate.
  - intros [= <-]. discriminate.
  - intros [= <-]. congruence.
Qed.

Lemma finish_means_regulated_witness :
  let c := {| info := Message 19 50 finish; handle := Some (acclimate (Message 19 50 finish)) |} in
  (18 <=? temperature (info c)) = true /\ (temperature (info c) <=? 20) = true /\
  (20 <? batteryCharge (info c)) = true.
Proof.
  intros c. apply (finish_means_regulated c); [|reflexivity].
  apply (reach_step 0 19 50 (main_init 0 0)); [apply reach_init|reflexivity|reflexivity].
Defined.

(** ** [charger] *)

(** X6.  A Reading returned by [charger]'s loop is a fixed point of it:
    charging it again makes no iteration and returns it unchanged
    (with any iteration budget, none included). *)
Theorem charger_idempotent (fuel fuel' : nat) (m r : message) :
  charger_loop fuel m = Some r -> charger_loop fuel' r = Some r.
Proof.
  intros H. apply charger_loop_exit. exact (charger_loop_guard _ _ _ H).
Qed.

Lemma charger_idempotent_witness :
  charger_loop 0 (charge (charge (Message 19 94.8 charging))) =
    Some (charge (charge (Message 19 94.8 charging))).
Proof.
  apply (charger_idempotent 2 0 (Message 19 94.8 charging)). reflexivity.
Defined.

(** Two finite positive numbers in order: the exponents are, or the
    mantissas at equal exponents. *)
Lemma SFltb_finite_inv s1 m1 e1 s2 m2 e2 :
  SFltb (S754_finite s1 m1 e1) (S754_finite s2 m2 e2) = true ->
  s1 = false -> s2 = false ->
  (e1 < e2)%Z \/ (e1 = e2 /\ (Z.pos m1 < Z.pos m2)%Z).
Proof.
  intros H -> ->. unfold SFltb, SFcompare in H.
  destruct (Z.compare_spec e1 e2) as [E|E|E]; try discriminate; [right|now left].
  split; [exact E|].
  change (PosDef.Pos.compare_cont Eq m1 m2) with (Pos.compare m1 m2) in H.
  destruct (Pos.compare_spec m1 m2); try discriminate. now apply Pos2Z.pos_lt_pos.
Qed.

Lemma SFltb_finite_sign s1 m1 e1 s2 m2 e2 :
  SFltb (S754_finite s1 m1 e1) (S754_finite s2 m2 e2) = true -> s1 = false -> s2 = false.
Proof. intros H ->. destruct s2; [discriminate|reflexivity]. Qed.

(** The one [double] between 94.899999999999977 and 94.9. *)
Lemma last_double_below_94_9 b :
  (94.899999999999977 <? b) = true -> (b <? 94.9) = true -> b = 94.899999999999991.
Proof.
  rewrite !FloatAxioms.ltb_spec.
  change (Prim2SF 94.899999999999977) with (S754_finite false 6677993822460312 (-46)).
  change (Prim2SF 94.9) with (S754_finite false 6677993822460314 (-46)).
  intros H1 H2. rewrite <- (SF2Prim_Prim2SF b).
  destruct (Prim2SF b) as [s|s| |s m e]; try discriminate.
  - destruct s; discriminate.
  - pose proof (SFltb_finite_sign _ _ _ _ _ _ H1 eq_refl) as ->.
    apply SFltb_finite_inv in H1; [|reflexivity|reflexivity].
    apply SFltb_finite_inv in H2; [|reflexivity|reflexivity].
    assert (e = (-46)%Z) as -> by lia.
    assert (Z.pos m = 6677993822460313%Z) as E by lia. injection E as ->.
    reflexivity.
Qed.

(** The last iteration of [charger]'s loop ends below 95: from the
    greatest [double] under 94.9 by evaluation, from anything smaller
    by the error bound of the addition. *)
Section Overshoot.
#[local] Open Scope Z_scope.

Lemma charge_overshoot b :
  (charge_floor <=? b)%float = true -> (b <? 94.9)%float = true ->
  (b + 0.1 <? 95)%float = true.
Proof.
  intros Hl Hu.
  destruct (94.899999999999977 <? b)%float eqn:Hq.
  { rewrite (last_double_below_94_9 b Hq Hu). reflexivity. }
  apply float_not_ltb_leb in Hq;
    [|discriminate|now apply (float_leb_not_nan charge_floor)].
  destruct (charge_progress b Hl Hu) as (Fb' & _ & _ & (Fb & _) & _).
  rewrite float_leb_fval in Hl, Hq by auto.
  apply Z.leb_le in Hl, Hq.
  assert (2 ^ 106 * 2 ^ 1018 < 2 ^ 1974) as Hbig by (vm_compute; reflexivity).
  assert (0 < 2 ^ 1018) as HW by (vm_compute; reflexivity).
  rewrite fval_floor in Hl.
  change (fval 94.899999999999977) with (6677993822460312 * 2 ^ 10 * 2 ^ 1018) in Hq.
  destruct (float_add_fval b 0.1 Fb eq_refl) as [_ Hr].
  { rewrite fval_0_1. set (W := 2 ^ 1018) in *. lia. }
  rewrite fval_0_1 in Hr.
  rewrite float_ltb_fval by auto. apply Z.ltb_lt.
  change (fval 95) with (6685030696878080 * 2 ^ 10 * 2 ^ 1018).
  set (W := 2 ^ 1018) in *. lia.
Qed.

End Overshoot.

(** X7.  [charger]'s loop overshoots by less than one step: started
    from a charge below 94.9 (and not below [-2^48]) it returns a charge
    that is at least 94.9 and below 95. *)
Theorem charger_stops_near_threshold (fuel : nat) (m r : message) :
  (charge_floor <=? batteryCharge m) = true ->
  (batteryCharge m <? 94.9) = true ->
  charger_loop fuel m = Some r ->
  (94.9 <=? batteryCharge r) = true /\ (batteryCharge r <? 95) = true.
Proof.
  revert m. induction fuel as [|fuel IH]; intros m Hl Hu; cbn [charger_loop];
    unfold charger_guard at 1; rewrite Hu; [discriminate|].
  intros H. destruct (charger_guard (charge m)) eqn:G.
  - apply (IH (charge m)); auto. cbn [charge batteryCharge].
    now destruct (charge_progress _ Hl Hu) as (_ & _ & ? & _).
  - rewrite charger_loop_exit in H by exact G. injection H as <-.
    cbn [charge batteryCharge] in *. split.
    + apply float_not_ltb_leb; [|discriminate|exact G].
      apply (float_leb_not_nan charge_floor).
      now destruct (charge_progress _ Hl Hu) as (_ & _ & ? & _).
    + now apply charge_overshoot.
Qed.

Lemma charger_stops_near_threshold_witness :
  (94.9 <=? batteryCharge (charge (charge (Message 19 94.8 charging)))) = true /\
  (batteryCharge (charge (charge (Message 19 94.8 charging))) <? 95) = true.
Proof.
  apply (charger_stops_near_threshold 2 (Message 19 94.8 charging)); reflexivity.
Defined.

(** ** [acclimate] *)

Lemma nan_compare t x :
  Prim2SF t = S754_nan ->
  (t <? x) = false /\ (x <? t) = false /\ (t <=? x) = false /\ (x <=? t) = false.
Proof.
  intros H. rewrite !FloatAxioms.ltb_spec, !FloatAxioms.leb_spec.
  unfold SFltb, SFleb, SFcompare. rewrite H. now destruct (Prim2SF x).
Qed.

(** X8.  [acclimate] on a Reading whose temperature is a NaN, the
    charge being above 20: both loop tests and the band test
    [temperature<=20 or temperature>=18] fail, so the coroutine reaches
    its final suspend point at the call without a single [co_yield],
    its promise never written; it produces no Reading. *)
Theorem acclimate_nan_temperature (i : message) (fuel : nat) :
  Prim2SF (temperature i) = S754_nan -> (20 <? batteryCharge i) = true ->
  acclimate i = {| frame := i; parked := final_suspend; promise_info := None |} /\
  readings fuel i = Some [].
Proof.
  intros Ht Hb.
  destruct (nan_compare _ 20 Ht) as (_ & A & B & _).
  destruct (nan_compare _ 18 Ht) as (C & _ & _ & D).
  assert (acclimate i = {| frame := i; parked := final_suspend; promise_info := None |}) as E.
  { unfold acclimate, from_cooling, from_heating, from_band, cooling_guard, heating_guard,
      band_guard. rewrite Hb, A, B, C, D. reflexivity. }
  split; [exact E|]. unfold readings. rewrite E, drain_final by reflexivity. reflexivity.
Qed.

Lemma acclimate_nan_temperature_witness :
  acclimate (Message nan 50 start) =
    {| frame := Message nan 50 start; parked := final_suspend; promise_info := None |} /\
  readings 0 (Message nan 50 start) = Some [].
Proof.
  apply (acclimate_nan_temperature (Message nan 50 start) 0); reflexivity.
Defined.

Section Band.
#[local] Open Scope Z_scope.

Lemma cool_keeps_warm t :
  (20 <? t)%float = true -> (t <=? temp_ceiling)%float = true ->
  (t - 0.1 <? 18)%float = false /\ temp_ok (t - 0.1).
Proof.
  intros Hl Hu.
  assert (is_fin t = true) as Ft.
  { apply (float_fin_between 20 t temp_ceiling); auto using float_ltb_leb. }
  rewrite float_leb_fval in Hu by auto. rewrite float_ltb_fval in Hl by auto.
  apply Z.leb_le in Hu. apply Z.ltb_lt in Hl.
  assert (2 ^ 108 * 2 ^ 1018 < 2 ^ 1974) as Hbig by (vm_compute; reflexivity).
  assert (0 < 2 ^ 1018) as HW by (vm_compute; reflexivity).
  change (fval temp_ceiling) with (2 ^ 104 * 2 ^ 1018) in Hu.
  change (fval 20) with (20 * 2 ^ 56 * 2 ^ 1018) in Hl.
  destruct (float_sub_fval t 0.1 Ft eq_refl) as [Ft' Hr].
  { rewrite fval_0_1. set (W := 2 ^ 1018) in *. lia. }
  rewrite fval_0_1 in Hr.
  unfold temp_ok. rewrite float_ltb_fval, !float_leb_fval by auto.
  change (fval temp_ceiling) with (2 ^ 104 * 2 ^ 1018).
  change (fval charge_floor) with (- 2 ^ 104 * 2 ^ 1018).
  change (fval 18) with (18 * 2 ^ 56 * 2 ^ 1018).
  rewrite Z.ltb_ge, !Z.leb_le. set (W := 2 ^ 1018) in *. lia.
Qed.

Lemma heat_keeps_cool t :
  (t <? 18)%float = true -> (charge_floor <=? t)%float = true ->
  (20 <? t + 0.1)%float = false /\ temp_ok (t + 0.1).
Proof.
  intros Hu Hl.
  assert (is_fin t = true) as Ft.
  { apply (float_fin_between charge_floor t 18); auto using float_ltb_leb. }
  rewrite float_leb_fval in Hl by auto. rewrite float_ltb_fval in Hu by auto.
  apply Z.leb_le in Hl. apply Z.ltb_lt in Hu.
  assert (2 ^ 108 * 2 ^ 1018 < 2 ^ 1974) as Hbig by (vm_compute; reflexivity).
  assert (0 < 2 ^ 1018) as HW by (vm_compute; reflexivity).
  change (fval charge_floor) with (- 2 ^ 104 * 2 ^ 1018) in Hl.
  change (fval 18) with (18 * 2 ^ 56 * 2 ^ 1018) in Hu.
  destruct (float_add_fval t 0.1 Ft eq_refl) as [Ft' Hr].
  { rewrite fval_0_1. set (W := 2 ^ 1018) in *. lia. }
  rewrite fval_0_1 in Hr.
  unfold temp_ok. rewrite float_ltb_fval, !float_leb_fval by auto.
  change (fval temp_ceiling) with (2 ^ 104 * 2 ^ 1018).
  change (fval charge_floor) with (- 2 ^ 104 * 2 ^ 1018).
  change (fval 20) with (20 * 2 ^ 56 * 2 ^ 1018).
  rewrite Z.ltb_ge, !Z.leb_le. set (W := 2 ^ 1018) in *. lia.
Qed.

End Band.

Lemma drain_deterministic fuel : forall fuel' c l l',
  drain fuel c = Some l -> drain fuel' c = Some l' -> l = l'.
Proof.
  induction fuel as [|fuel IH]; intros fuel' c l l'.
  - cbn [drain]. destruct (parked c) eqn:P; try discriminate.
    intros [= <-]. rewrite drain_final by assumption. now intros [= <-].
  - destruct (parked c) eqn:P.
    5: { rewrite !drain_final by assumption. congruence. }
    all: destruct fuel' as [|fuel']; cbn [drain]; rewrite P; try discriminate;
      destruct (resume c) as [c'|]; try discriminate;
      destruct (drain fuel c') as [l1|] eqn:D1; [|now destruct (yielded c')];
      destruct (drain fuel' c') as [l2|] eqn:D2; [|now destruct (yielded c')];
      rewrite (IH _ _ _ _ D1 D2); destruct (yielded c'); congruence.
Qed.

Lemma temp_ok_not_nan t : temp_ok t -> not_nan t.
Proof. intros [H _]. now apply (float_leb_not_nan charge_floor). Qed.

Lemma run_shape_cons s m l : state m = s -> run_shape s l -> run_shape s (m :: l).
Proof.
  intros Hm (l0 & x & -> & Hf & Hx). exists (m :: l0), x.
  split; [reflexivity|]. split; [now constructor|exact Hx].
Qed.

Lemma band_exit s pr f :
  temp_ok (temperature f) ->
  ((20 <? batteryCharge f) = true ->
   (temperature f <? 18) = false /\ (20 <? temperature f) = false) ->
  exists fuel l, drain fuel (from_band pr f) = Some l /\
    run_shape s (outputs (from_band pr f) l).
Proof.
  intros Ht Hx. pose proof (temp_ok_not_nan _ Ht) as Hn.
  unfold from_band, band_guard. rewrite band_total by assumption.
  exists 1%nat, []. split; [reflexivity|].
  exists [], (set_state f charging).
  split; [reflexivity|]. split; [constructor|]. split; [reflexivity|].
  unfold regulated. cbn. intros Hb. destruct (Hx Hb) as [A B].
  split; apply float_not_ltb_leb; auto; discriminate.
Qed.

Lemma heating_tail v :
  (0 <= v)%Z ->
  forall pr f, (charge_ceiling <? batteryCharge f) = false ->
    temp_ok (temperature f) -> (20 <? temperature f) = false ->
    ((20 <? batteryCharge f) = true -> (fval (batteryCharge f) <= v)%Z) ->
    exists fuel l, drain fuel (from_heating pr f) = Some l /\
      run_shape heating (outputs (from_heating pr f) l).
Proof.
  intros Hv. pattern v. apply natlike_ind; [| |exact Hv]; clear v Hv.
  - intros pr f Hc Ht Hh Hm. unfold from_heating. destruct (heating_guard f) eqn:G.
    + apply andb_true_iff in G. destruct G as [_ G].
      destruct (drain_progress _ G Hc) as (_ & ? & _). specialize (Hm G). lia.
    + apply band_exit; auto. intros Hb. split; auto.
      unfold heating_guard in G. rewrite Hb, andb_true_r in G. exact G.
  - intros v Hv IH pr f Hc Ht Hh Hm. unfold from_heating. destruct (heating_guard f) eqn:G.
    + apply andb_true_iff in G. destruct G as [Gt G].
      destruct (drain_progress _ G Hc) as (_ & Hp & Hc' & _). specialize (Hm G).
      destruct (heat_keeps_cool _ Gt (proj1 Ht)) as [Hh' Ht'].
      destruct (IH (Some (heat f)) (heat f) Hc' Ht' Hh') as (fuel & l & Hd & Hs).
      { intros _. cbn [heat batteryCharge]. lia. }
      exists (S fuel), (outputs (from_heating (Some (heat f)) (heat f)) l). split.
      * apply drain_step; [discriminate|reflexivity|exact Hd].
      * unfold outputs at 1. cbn [yielded co_yield parked promise_info].
        now apply run_shape_cons.
    + apply band_exit; auto. intros Hb. split; auto.
      unfold heating_guard in G. rewrite Hb, andb_true_r in G. exact G.
Qed.

Lemma cooling_tail v :
  (0 <= v)%Z ->
  forall pr f, (charge_ceiling <? batteryCharge f) = false ->
    temp_ok (temperature f) -> (temperature f <? 18) = false ->
    ((20 <? batteryCharge f) = true -> (fval (batteryCharge f) <= v)%Z) ->
    exists fuel l, drain fuel (from_cooling pr f) = Some l /\
      run_shape cooling (outputs (from_cooling pr f) l).
Proof.
  assert (forall pr f, temp_ok (temperature f) -> (temperature f <? 18) = false ->
            cooling_guard f = false ->
            exists fuel l, drain fuel (from_heating pr f) = Some l /\
              run_shape cooling (outputs (from_heating pr f) l)) as Exit.
  { intros pr f Ht Hw G. unfold from_heating, heating_guard. rewrite Hw. cbn [andb].
    apply band_exit; auto. intros Hb. split; auto.
    unfold cooling_guard in G. rewrite Hb, andb_true_r in G. exact G. }
  intros Hv. pattern v. apply natlike_ind; [| |exact Hv]; clear v Hv.
  - intros pr f Hc Ht Hw Hm. unfold from_cooling. destruct (cooling_guard f) eqn:G; [|auto].
    apply andb_true_iff in G. destruct G as [_ G].
    destruct (drain_progress _ G Hc) as (_ & ? & _). specialize (Hm G). lia.
  - intros v Hv IH pr f Hc Ht Hw Hm. unfold from_cooling. destruct (cooling_guard f) eqn:G; [|auto].
    apply andb_true_iff in G. destruct G as [Gt G].
    destruct (drain_progress _ G Hc) as (_ & Hp & Hc' & _). specialize (Hm G).
    destruct (cool_keeps_warm _ Gt (proj2 Ht)) as [Hw' Ht'].
    destruct (IH (Some (cool f)) (cool f) Hc' Ht' Hw') as (fuel & l & Hd & Hs).
    { intros _. cbn [cool batteryCharge]. lia. }
    exists (S fuel), (outputs (from_cooling (Some (cool f)) (cool f)) l). split.
    + apply drain_step; [discriminate|reflexivity|exact Hd].
    + unfold outputs at 1. cbn [yielded co_yield parked promise_info].
      now apply run_shape_cons.
Qed.

Lemma acclimate_shape (i : message) :
  (charge_ceiling <? batteryCharge i) = false -> temp_ok (temperature i) ->
  exists fuel l, readings fuel i = Some l /\
    (run_shape cooling l \/ run_shape heating l).
Proof.
  intros Hc Ht. unfold readings.
  assert (exists fuel l, drain fuel (acclimate i) = Some l /\
            (run_shape cooling (outputs (acclimate i) l) \/
             run_shape heating (outputs (acclimate i) l))) as (fuel & l & Hd & Hs).
  { unfold acclimate. destruct (20 <? batteryCharge i) eqn:G.
    - destruct (20 <? temperature i) eqn:Gt.
      + destruct (cooling_tail (Z.max 0 (fval (batteryCharge i))) ltac:(lia) None i Hc Ht
                    (above_20_not_below_18 _ Gt) ltac:(lia)) as (fuel & l & Hd & Hs).
        exists fuel, l. auto.
      + unfold from_cooling, cooling_guard. rewrite Gt. cbn [andb].
        destruct (heating_tail (Z.max 0 (fval (batteryCharge i))) ltac:(lia) None i Hc Ht
                    Gt ltac:(lia)) as (fuel & l & Hd & Hs).
        exists fuel, l. auto.
    - exists 1%nat, []. split; [reflexivity|]. left.
      exists [], (set_state i charging).
      split; [reflexivity|]. split; [constructor|]. split; [reflexivity|].
      unfold regulated. cbn. intros Hb. congruence. }
  exists fuel, (outputs (acclimate i) l). rewrite Hd. auto.
Qed.

Lemma readings_deterministic fuel fuel' i l l' :
  readings fuel i = Some l -> readings fuel' i = Some l' -> l = l'.
Proof.
  unfold readings. destruct (drain fuel (acclimate i)) eqn:D; [|discriminate].
  destruct (drain fuel' (acclimate i)) eqn:D'; [|discriminate].
  rewrite (drain_deterministic _ _ _ _ _ D D'). congruence.
Qed.

(** X9.  The Readings of [acclimate], for a charge of at most [2^51]
    and a temperature of magnitude at most [2^48]: the last one is
    tagged [charging], and unless the battery is down to 20 or less its
    temperature has been brought into the band from 18 to 20. *)
Theorem acclimate_ends_regulated (i : message) (fuel : nat) (l : list message) :
  (charge_ceiling <? batteryCharge i) = false ->
  (charge_floor <=? temperature i) = true -> (temperature i <=? temp_ceiling) = true ->
  readings fuel i = Some l ->
  exists l0 x, l = l0 ++ [x] /\ state x = charging /\
    ((20 <? batteryCharge x) = true ->
     (18 <=? temperature x) = true /\ (temperature x <=? 20) = true).
Proof.
  intros Hc H1 H2 Hr.
  destruct (acclimate_shape i Hc (conj H1 H2)) as (fuel' & l' & Hr' & Hs).
  rewrite (readings_deterministic _ _ _ _ _ Hr Hr').
  destruct Hs as [(l0 & x & -> & _ & Hx & Hg)|(l0 & x & -> & _ & Hx & Hg)];
    exists l0, x; auto.
Qed.

Lemma acclimate_ends_regulated_witness :
  let m := Message 21 90 cooling in
  let l := map (fun k => Nat.iter k cool m) (seq 1 10) ++
           [set_state (Nat.iter 10 cool m) charging] in
  exists l0 x, l = l0 ++ [x] /\ state x = charging /\
    ((20 <? batteryCharge x) = true ->
     (18 <=? temperature x) = true /\ (temperature x <=? 20) = true).
Proof.
  intros m l. apply (acclimate_ends_regulated m 64 l); reflexivity.
Defined.

(** X10.  Under the same bounds, the Readings [acclimate] yields before
    the closing one are either all tagged [cooling] or all tagged
    [heating]: a step of 0.1 never crosses the band, so one run never
    cools and then heats. *)
Theorem acclimate_never_mixes (i : message) (fuel : nat) (l : list message) :
  (charge_ceiling <? batteryCharge i) = false ->
  (charge_floor <=? temperature i) = true -> (temperature i <=? temp_ceiling) = true ->
  readings fuel i = Some l ->
  exists l0 x, l = l0 ++ [x] /\
    (Forall (fun m => state m = cooling) l0 \/ Forall (fun m => state m = heating) l0).
Proof.
  intros Hc H1 H2 Hr.
  destruct (acclimate_shape i Hc (conj H1 H2)) as (fuel' & l' & Hr' & Hs).
  rewrite (readings_deterministic _ _ _ _ _ Hr Hr').
  destruct Hs as [(l0 & x & -> & Hf & _)|(l0 & x & -> & Hf & _)];
    exists l0, x; auto.
Qed.

Lemma acclimate_never_mixes_witness :
  let m := Message 17 90 heating in
  let l := map (fun k => Nat.iter k heat m) (seq 1 10) ++
           [set_state (Nat.iter 10 heat m) charging] in
  exists l0 x, l = l0 ++ [x] /\
    (Forall (fun m => state m = cooling) l0 \/ Forall (fun m => state m = heating) l0).
Proof.
  intros m l. apply (acclimate_never_mixes m 64 l); reflexivity.
Defined.

Section Reserve.
#[local] Open Scope Z_scope.

Lemma drain_keeps_reserve b :
  (20 <? b)%float = true -> (charge_ceiling <? b)%float = false ->
  (19 <? b - 0.8)%float = true.
Proof.
  intros Hl Hu.
  destruct (drain_progress b Hl Hu) as (Fb' & _ & _ & _).
  apply float_not_ltb_leb in Hu; [|discriminate|now apply (float_ltb_not_nan 20)].
  assert (is_fin b = true) as Fb.
  { apply (float_fin_between 20 b charge_ceiling); auto using float_ltb_leb. }
  rewrite float_leb_fval in Hu by auto. rewrite float_ltb_fval in Hl by auto.
  apply Z.leb_le in Hu. apply Z.ltb_lt in Hl.
  assert (2 ^ 108 * 2 ^ 1018 < 2 ^ 1974) as Hbig by (vm_compute; reflexivity).
  assert (0 < 2 ^ 1018) as HW by (vm_compute; reflexivity).
  change (fval charge_ceiling) with (2 ^ 107 * 2 ^ 1018) in Hu.
  change (fval 20) with (20 * 2 ^ 56 * 2 ^ 1018) in Hl.
  destruct (float_sub_fval b 0.8 Fb eq_refl) as [_ Hr].
  { rewrite fval_0_8. set (W := 2 ^ 1018) in *. lia. }
  rewrite fval_0_8 in Hr.
  rewrite float_ltb_fval by auto. apply Z.ltb_lt.
  change (fval 19) with (19 * 2 ^ 56 * 2 ^ 1018).
  set (W := 2 ^ 1018) in *. lia.
Qed.

End Reserve.

Lemma next_reserve pr f :
  reserve f ->
  forall c, c = from_cooling pr f \/ c = from_heating pr f \/ c = from_band pr f ->
  parked c <> final_suspend -> reserve (frame c) /\ yielded c = Some (frame c).
Proof.
  intros Hf c Hc.
  assert (forall b, (20 <? b) = true -> (charge_ceiling <? b) = false ->
            (19 <? b - 0.8) = true /\ (charge_ceiling <? b - 0.8) = false) as Step.
  { intros b H1 H2. split; [now apply drain_keeps_reserve|].
    now destruct (drain_progress b H1 H2) as (_ & _ & ? & _). }
  unfold from_cooling, from_heating, from_band in Hc.
  destruct (cooling_guard f) eqn:Gc, (heating_guard f) eqn:Gh, (band_guard f) eqn:Gb;
    destruct Hc as [-> | [-> | ->]]; cbn; intros Hp; try congruence;
    (split; [|reflexivity]); try exact Hf;
    unfold cooling_guard, heating_guard in *;
    repeat match goal with H : _ && _ = true |- _ => apply andb_true_iff in H; destruct H end;
    apply Step; auto; apply Hf.
Qed.

Lemma yielded_parked c m : yielded c = Some m -> parked c <> final_suspend.
Proof. unfold yielded. destruct (parked c); congruence. Qed.

Lemma drain_reserve fuel : forall c l,
  (parked c <> final_suspend -> reserve (frame c)) ->
  drain fuel c = Some l -> Forall reserve l.
Proof.
  assert (forall c' l' l, (parked c' <> final_suspend ->
             reserve (frame c') /\ yielded c' = Some (frame c')) ->
           Forall reserve l' ->
           match yielded c' with Some m => Some (m :: l') | None => Some l' end = Some l ->
           Forall reserve l) as Cons.
  { intros c' l' l N Hl'. destruct (yielded c') as [m|] eqn:Y; intros [= <-]; [|exact Hl'].
    destruct (N (yielded_parked _ _ Y)) as [R E]. constructor; [congruence|exact Hl']. }
  induction fuel as [|fuel IH]; intros c l Hc; cbn [drain].
  - destruct (parked c); try discriminate. intros [= <-]. constructor.
  - unfold resume. destruct (parked c) eqn:P.
    5: { intros [= <-]. constructor. }
    3, 4: rewrite drain_final by reflexivity; cbn; intros [= <-]; constructor.
    + pose proof (next_reserve (promise_info c) (frame c) (Hc ltac:(discriminate)) _
                    (or_introl eq_refl)) as N.
      destruct (drain fuel (from_cooling (promise_info c) (frame c))) as [l'|] eqn:D;
        [|now destruct (yielded _)].
      apply Cons; [exact N|]. apply (IH _ _ (fun Hp => proj1 (N Hp)) D).
    + pose proof (next_reserve (promise_info c) (frame c) (Hc ltac:(discriminate)) _
                    (or_intror (or_introl eq_refl))) as N.
      destruct (drain fuel (from_heating (promise_info c) (frame c))) as [l'|] eqn:D;
        [|now destruct (yielded _)].
      apply Cons; [exact N|]. apply (IH _ _ (fun Hp => proj1 (N Hp)) D).
Qed.

(** X11.  [acclimate] called with a charge above 20 (and at most
    [2^51]) never takes the battery down to 19 or less: every Reading it
    yields has a charge above 19. *)
Theorem acclimate_keeps_reserve (i : message) (fuel : nat) (l : list message) :
  (20 <? batteryCharge i) = true -> (charge_ceiling <? batteryCharge i) = false ->
  readings fuel i = Some l ->
  Forall (fun x => (19 <? batteryCharge x) = true) l.
Proof.
  intros Hb Hc. unfold readings, acclimate. rewrite Hb.
  assert (reserve i) as Ri.
  { split; [|exact Hc]. apply (float_ltb_trans 19 20); [reflexivity|exact Hb]. }
  pose proof (next_reserve None i Ri _ (or_introl eq_refl)) as N.
  destruct (drain fuel (from_cooling None i)) as [l'|] eqn:D; [|discriminate].
  pose proof (drain_reserve _ _ _ (fun Hp => proj1 (N Hp)) D) as Hl'.
  intros [= <-].
  assert (Forall reserve
            (match yielded (from_cooling None i) with Some m => m :: l' | None => l' end)) as F.
  { destruct (yielded (from_cooling None i)) as [m|] eqn:Y; [|exact Hl'].
    destruct (N (yielded_parked _ _ Y)) as [R E]. constructor; [congruence|exact Hl']. }
  revert F. apply Forall_impl. intros a [H _]. exact H.
Qed.

Lemma acclimate_keeps_reserve_witness :
  Forall (fun x => (19 <? batteryCharge x) = true)
    (map (fun k => Nat.iter k cool (Message 25 50 cooling)) (seq 1 38) ++
     [set_state (Nat.iter 38 cool (Message 25 50 cooling)) charging]).
Proof.
  apply (acclimate_keeps_reserve (Message 25 50 cooling) 64); reflexivity.
Defined.

(** ** The regulation cycles

    [init_values] draws one of 55 x 100 pairs.  For each of them the
    dispatch loop is run until it is back in [start], every step being
    checked ([cycle_check]); the properties of all reachable states
    follow, since a state reached after [init_values] lies on one of
    these runs. *)

Lemma all_draws_checked : forallb draw_ok all_draws = true.
Proof. vm_compute. reflexivity. Qed.

Lemma charger_loop_deterministic fuel : forall fuel' m r r',
  charger_loop fuel m = Some r -> charger_loop fuel' m = Some r' -> r = r'.
Proof.
  induction fuel as [|fuel IH]; intros fuel' m r r'.
  - cbn [charger_loop]. destruct (charger_guard m) eqn:G; [discriminate|].
    intros [= <-]. rewrite charger_loop_exit by assumption. now intros [= <-].
  - destruct (charger_guard m) eqn:G.
    + destruct fuel'; cbn [charger_loop]; rewrite G; [discriminate|]. apply IH.
    + rewrite !charger_loop_exit by assumption. congruence.
Qed.

Lemma main_step_independent fuel fuel' r1 r2 r1' r2' c c1 c2 :
  state (info c) <> start ->
  main_step fuel r1 r2 c = Some c1 -> main_step fuel' r1' r2' c = Some c2 -> c1 = c2.
Proof.
  intros Hs. unfold main_step. destruct (state (info c)); try congruence.
  unfold charger.
  destruct (charger_loop fuel (info c)) as [r|] eqn:E; [|discriminate].
  destruct (charger_loop fuel' (info c)) as [r'|] eqn:E'; [|discriminate].
  rewrite (charger_loop_deterministic _ _ _ _ _ E E'). congruence.
Qed.

Lemma after_start_mod r1 r2 :
  after_start ((r1 mod 55)%N, (r2 mod 100)%N) = after_start (r1, r2).
Proof.
  unfold after_start, init_values. cbn [fst snd]. now rewrite !N.Div0.mod_mod.
Qed.

Lemma draw_in_range r1 r2 : In ((r1 mod 55)%N, (r2 mod 100)%N) all_draws.
Proof.
  apply in_prod.
  - apply in_map_iff. exists (N.to_nat (r1 mod 55)). split; [apply N2Nat.id|].
    apply in_seq. pose proof (N.mod_lt r1 55 ltac:(discriminate)) as L.
    revert L. generalize (r1 mod 55)%N. intros x L. lia.
  - apply in_map_iff. exists (N.to_nat (r2 mod 100)). split; [apply N2Nat.id|].
    apply in_seq. pose proof (N.mod_lt r2 100 ltac:(discriminate)) as L.
    revert L. generalize (r2 mod 100)%N. intros x L. lia.
Qed.

Lemma draw_ok_mod r1 r2 :
  draw_ok ((r1 mod 55)%N, (r2 mod 100)%N) = draw_ok (r1, r2).
Proof. unfold draw_ok. rewrite after_start_mod. reflexivity. Qed.

Lemma after_start_checked r1 r2 : draw_ok (r1, r2) = true.
Proof.
  rewrite <- draw_ok_mod.
  exact (proj1 (forallb_forall draw_ok all_draws) all_draws_checked _ (draw_in_range r1 r2)).
Qed.

Lemma after_start_step fuel r1 r2 c :
  state (info c) = start -> main_step fuel r1 r2 c = Some (after_start (r1, r2)).
Proof. intros Es. unfold main_step. now rewrite Es. Qed.

Lemma cycle_check_start n c : state (info c) = start -> cycle_check n c = true.
Proof. intros H. destruct n; cbn [cycle_check]; now rewrite H. Qed.

Lemma cycle_check_step n c :
  state (info c) <> start -> cycle_check n c = true ->
  exists n' c', n = S n' /\ main_step charger_fuel 0 0 c = Some c' /\
    step_ok c c' = true /\ cycle_check n' c' = true.
Proof.
  intros Hs. destruct n as [|n]; cbn [cycle_check];
    destruct (state (info c)); try congruence; try discriminate.
  all: destruct (main_step charger_fuel 0 0 c) as [c'|]; [|discriminate];
    intros H; apply andb_true_iff in H; destruct H; eauto 6.
Qed.

Lemma State_eq_start (s : State) : {s = start} + {s <> start}.
Proof. destruct s; (now left) || (right; discriminate). Qed.

Lemma reachable_on_cycle c : reachable c -> on_cycle c.
Proof.
  induction 1 as [t0 b0|fuel r1 r2 c c' _ [Hd (n & Hn & Hc)] G E].
  - split; [cbn; congruence|]. exists 0%nat. split; [apply Nat.le_0_l|reflexivity].
  - destruct (State_eq_start (state (info c))) as [Es|Es].
    + rewrite (after_start_step _ _ _ _ Es) in E. injection E as <-.
      pose proof (after_start_checked r1 r2) as D. unfold draw_ok in D.
      apply andb_true_iff in D. destruct D as [D C]. split; [auto|].
      exists cycle_bound. auto.
    + destruct (cycle_check_step n c Es Hc) as (n' & c'' & -> & E' & T & C).
      rewrite (main_step_independent _ _ _ _ _ _ _ _ _ Es E E').
      apply andb_true_iff in T. destruct T as [_ T]. split; [auto|].
      exists n'. split; [lia|exact C].
Qed.

(** X12.  The transitions of the mode, over every iteration of the
    dispatch loop from a reachable state, whatever [rand()] returns:
    [start] leads to [heating], [cooling], [finish] or [charging];
    [cooling] to [cooling] or [charging]; [heating] to [heating] or
    [charging]; [charging] to [heating], [cooling] or [finish]; [finish]
    to [start]. *)
Theorem mode_transitions (fuel : nat) (r1 r2 : N) (c c' : controller) :
  reachable c -> main_step fuel r1 r2 c = Some c' ->
  allowed (state (info c)) (state (info c')) = true.
Proof.
  intros R E. destruct (reachable_on_cycle c R) as [_ (n & _ & Hc)].
  destruct (State_eq_start (state (info c))) as [Es|Es].
  - revert E. unfold main_step. rewrite Es. intros [= <-]. cbn [info].
    destruct (init_values_class r1 r2) as (A & B & _).
    destruct (state (init_values r1 r2)); try reflexivity; congruence.
  - destruct (cycle_check_step n c Es Hc) as (n' & c'' & _ & E' & T & _).
    rewrite (main_step_independent _ _ _ _ _ _ _ _ _ Es E E').
    apply andb_true_iff in T. tauto.
Qed.

Lemma mode_transitions_witness :
  let c := {| info := Message 25 50 cooling;
              handle := Some (acclimate (Message 25 50 cooling)) |} in
  let c' := {| info := cool (cool (Message 25 50 cooling));
               handle := Some (co_yield yield_cooling (cool (cool (Message 25 50 cooling)))) |} in
  allowed (state (info c)) (state (info c')) = true.
Proof.
  intros c c'. apply (mode_transitions 0 0 0 c c'); [|reflexivity].
  apply (reach_step 0 25 50 (main_init 0 0)); [apply reach_init|reflexivity|reflexivity].
Defined.

(** X13.  Once [init_values] has run, the Reading of [main] stays in
    range in every reachable state: the temperature in [0, 64) and the
    charge in [0, 100). *)
Theorem readings_stay_in_domain (c : controller) :
  reachable c -> state (info c) <> start ->
  (0 <=? temperature (info c)) = true /\ (temperature (info c) <? 64) = true /\
  (0 <=? batteryCharge (info c)) = true /\ (batteryCharge (info c) <? 100) = true.
Proof.
  intros R Hs. destruct (reachable_on_cycle c R) as [Hd _]. specialize (Hd Hs).
  unfold in_domain in Hd. rewrite !andb_true_iff in Hd. tauto.
Qed.

Lemma readings_stay_in_domain_witness :
  let c := {| info := Message 25 50 cooling;
              handle := Some (acclimate (Message 25 50 cooling)) |} in
  (0 <=? temperature (info c)) = true /\ (temperature (info c) <? 64) = true /\
  (0 <=? batteryCharge (info c)) = true /\ (batteryCharge (info c) <? 100) = true.
Proof.
  intros c. apply (readings_stay_in_domain c); [|discriminate].
  apply (reach_step 0 25 50 (main_init 0 0)); [apply reach_init|reflexivity|reflexivity].
Defined.

Lemma main_step_draws fuel r1 r2 c :
  state (info c) <> start -> main_step fuel r1 r2 c = main_step fuel 0 0 c.
Proof. intros Hs. unfold main_step. destruct (state (info c)); congruence. Qed.

Lemma allowed_guard c c' : step_ok c c' = true -> loop_guard c = true.
Proof.
  unfold step_ok, loop_guard. intros H. apply andb_true_iff in H. destruct H as [H _].
  destruct (state (info c)); try reflexivity. discriminate.
Qed.

Lemma cycle_check_reaches_finish rnd n : forall k c,
  state (info c) <> start -> cycle_check n c = true ->
  exists m c', (m < n)%nat /\ run charger_fuel rnd k m c = Running c' /\
    state (info c') = finish.
Proof.
  induction n as [|n IH]; intros k c Hs Hc.
  - destruct (cycle_check_step 0 c Hs Hc) as (? & ? & [=] & _).
  - destruct (cycle_check_step (S n) c Hs Hc) as (n' & c1 & [= <-] & E & T & C).
    destruct (State_eq_start (state (info c1))) as [E1|E1].
    + exists 0%nat, c. split; [lia|]. split; [reflexivity|].
      unfold step_ok in T. rewrite E1 in T. apply andb_true_iff in T. destruct T as [T _].
      destruct (state (info c)); try discriminate; reflexivity.
    + destruct (IH (S k) c1 E1 C) as (m & c' & Hm & Hr & Hf).
      exists (S m), c'. split; [lia|]. split; [|exact Hf].
      cbn [run]. rewrite (allowed_guard _ _ T), main_step_draws, E by assumption. exact Hr.
Qed.

(** X14.  Every sequence completes: from any reachable state, whatever
    [rand()] returns, the dispatch loop is in mode [finish] after at
    most [cycle_bound] = 2300 iterations, without getting stuck on the
    way ([charger]'s loop never needing more than 1000 iterations). *)
Theorem every_cycle_reaches_finish (c : controller) (rnd : nat -> N * N) (k : nat) :
  reachable c ->
  exists m c', (m <= cycle_bound)%nat /\ run charger_fuel rnd k m c = Running c' /\
    state (info c') = finish.
Proof.
  intros R. destruct (State_eq_start (state (info c))) as [Es|Es].
  - pose proof (after_start_checked (fst (rnd k)) (snd (rnd k))) as D. unfold draw_ok in D.
    apply andb_true_iff in D. destruct D as [_ C].
    pose proof (after_start_step charger_fuel (fst (rnd k)) (snd (rnd k)) c Es) as E.
    assert (state (info (after_start (fst (rnd k), snd (rnd k)))) <> start) as A.
    { apply (init_values_class (fst (rnd k)) (snd (rnd k))). }
    destruct (cycle_check_reaches_finish rnd cycle_bound (S k) _ A C) as (m & c' & Hm & Hr & Hf).
    exists (S m), c'. split; [lia|]. split; [|exact Hf].
    cbn [run]. replace (loop_guard c) with true by (unfold loop_guard; now rewrite Es).
    rewrite E. exact Hr.
  - destruct (reachable_on_cycle c R) as [_ (n & Hn & Hc)].
    destruct (cycle_check_reaches_finish rnd n k c Es Hc) as (m & c' & Hm & Hr & Hf).
    exists m, c'. split; [lia|]. auto.
Qed.

Lemma every_cycle_reaches_finish_witness :
  exists m c', (m <= cycle_bound)%nat /\
    run charger_fuel (fun _ => (25, 50)%N) 0 m (main_init 0 0) = Running c' /\
    state (info c') = finish.
Proof.
  apply (every_cycle_reaches_finish (main_init 0 0) (fun _ => (25, 50)%N) 0).
  apply reach_init.
Defined.
